(** * The ingestion pipeline of the compute service

    Shallow embedding of [src/compute_service/prepare.py]: the per-document
    worker [object_pipeline], the index writer [save_file_chunks_to_qdrant],
    the fan-out [corpora_to_qdrant], the change detector
    [no_corpora_changes] and the polling loop [main].

    The external collaborators (MinIO, PyMuPDF, the tokenizer-based splitter,
    the two encoders, the worker pool's completion order) are the fields of
    the class [Collaborators]; the local file system and the Qdrant
    collection are explicit state, and every call to a collaborator is
    recorded in a trace.  Log messages and the timing around them are left
    out.

    The worker pool is modelled by the order in which its results complete:
    the trace shows the run of a worker where its result is consumed.  The
    worker acts on the files only and the index writer on the collection
    only, so neither the files nor the collection depend on how the runs of
    the workers really interleave with the writes.  When an exception ends
    the loop over the results, the pool is terminated: how far it had by
    then run the workers whose results were not consumed is a collaborator
    too ([ran_ahead]).

    Files are taken to be on a POSIX system and their encoding to succeed:
    text written to a file is stored as it is, and text read from it comes
    back with universal newlines. *)

From Stdlib Require Import ZArith Ascii.
From stdpp Require Import gmap strings list pretty.

Local Open Scope string_scope.
Local Open Scope list_scope.
Local Open Scope nat_scope.

(** ** Data model *)

(** JSON scalars as they occur in payloads and in [model_dump] output. *)
Inductive Value :=
| VInt (z : Z)
| VStr (s : string).

#[export] Instance Value_eq_dec : EqDecision Value.
Proof. solve_decision. Defined.

(** Modelled from the spec: the declaration of [MoodleFileObject]
    ([src/modules/minio/schemas.py]) is not among the sources.  The code uses
    the fields [course_id], [module_id] and [filename] (the composite
    identity of a catalog entry); [other_fields] stands for the remaining
    declared fields ("remote location and modification markers"), as the
    (name, value) pairs [model_dump] lists after the first three. *)
Record MoodleFileObject := {
  course_id : Z;
  module_id : Z;
  filename : string;
  other_fields : list (string * Value);
}.

#[export] Instance MoodleFileObject_eq_dec : EqDecision MoodleFileObject.
Proof. solve_decision. Defined.

(** [Corpora] (pydantic model of the catalog reply): the entry list. *)
Record Corpora := { moodle_files : list MoodleFileObject }.

(** [obj.model_dump()]: the dict of all fields, in declaration order. *)
Definition model_dump (obj : MoodleFileObject) : list (string * Value) :=
  ("course_id", VInt (course_id obj))
    :: ("module_id", VInt (module_id obj))
    :: ("filename", VStr (filename obj))
    :: other_fields obj.

(** The ["document-ref"] dict of a chunk. *)
Record DocumentRef := {
  ref_course_id : Z;
  ref_module_id : Z;
  ref_filename : string;
}.

#[export] Instance DocumentRef_eq_dec : EqDecision DocumentRef.
Proof. solve_decision. Defined.

(** The ["chunk-ref"] dict of a chunk. *)
Record ChunkRef := { chunk_number : nat }.

#[export] Instance ChunkRef_eq_dec : EqDecision ChunkRef.
Proof. solve_decision. Defined.

(** A chunk record, the dict built in [object_pipeline]. *)
Record Chunk := {
  text : string;
  document_ref : DocumentRef;
  chunk_ref : ChunkRef;
}.

#[export] Instance Chunk_eq_dec : EqDecision Chunk.
Proof. solve_decision. Defined.

(** [ref.items()]: keys and values of a document-ref, in insertion order. *)
Definition ref_items (ref : DocumentRef) : list (string * Value) :=
  [ ("course_id", VInt (ref_course_id ref));
    ("module_id", VInt (ref_module_id ref));
    ("filename", VStr (ref_filename ref)) ].

(** ** The vector store *)

(** [models.FieldCondition(key=..., match=models.MatchValue(value=...))] *)
Record FieldCondition := {
  key : string;
  match_value : Value;
}.

#[export] Instance FieldCondition_eq_dec : EqDecision FieldCondition.
Proof. solve_decision. Defined.

(** [models.Filter(must=...)] *)
Record Filter := { must : list FieldCondition }.

#[export] Instance Filter_eq_dec : EqDecision Filter.
Proof. solve_decision. Defined.

(** The value a payload holds under a dotted key. *)
Definition payload_field (p : Chunk) (k : string) : option Value :=
  if decide (k = "text") then Some (VStr (text p))
  else if decide (k = "document-ref.course_id")
  then Some (VInt (ref_course_id (document_ref p)))
  else if decide (k = "document-ref.module_id")
  then Some (VInt (ref_module_id (document_ref p)))
  else if decide (k = "document-ref.filename")
  then Some (VStr (ref_filename (document_ref p)))
  else if decide (k = "chunk-ref.chunk_number")
  then Some (VInt (Z.of_nat (chunk_number (chunk_ref p))))
  else None.

Definition condition_holds (p : Chunk) (c : FieldCondition) : bool :=
  bool_decide (payload_field p (key c) = Some (match_value c)).

(** A payload satisfies a filter when every [must] condition holds. *)
Definition filter_matches (f : Filter) (p : Chunk) : bool :=
  forallb (condition_holds p) (must f).

(** The filter [save_file_chunks_to_qdrant] builds from a document-ref. *)
Definition duplicates_filter (ref : DocumentRef) : Filter :=
  {| must := map (fun kv => {| key := "document-ref." +:+ kv.1;
                              match_value := kv.2 |})
                 (ref_items ref) |}.

(** ** Collaborators *)

Inductive Exn :=
| S3Error            (* [minio_client.fget_object] raised *)
| FileDataError      (* [pymupdf.Document] / [process_document] raised *)
| HTTPError.         (* [fetch_corpora] raised *)

#[export] Instance Exn_eq_dec : EqDecision Exn.
Proof. solve_decision. Defined.

(** The outcome of a call: a value, or an exception. *)
Inductive Res (A : Type) :=
| Ok (a : A)
| Raise (e : Exn).
Arguments Ok {A} a.
Arguments Raise {A} e.

(** How far a worker had come when the pool was terminated: it had fetched
    the raw file (lines 84-88), or it was inside the [with] block with the
    conversion under way (lines 95-97), or it had finished. *)
Inductive Progress := Fetched | Converting | Finished.

(** What the code imports from modules that are not among the sources, and
    the services it calls.  A collaborator that can raise returns [None]
    when it does. *)
Class Collaborators := {
  Dense : Type;
  Sparse : Type;
  (** [src.modules.moodle.utils.content_to_minio_object] *)
  content_to_minio_object : Z -> Z -> string -> string;
  (** [src.compute_service.cache.PDF_TO_TEXT_VERSION] *)
  PDF_TO_TEXT_VERSION : string;
  (** the bucket: the bytes [fget_object] downloads for an object name *)
  bucket : string -> option string;
  (** [join_chunks (pymupdf4llm.process_document (pymupdf.Document file))] *)
  pdf_to_text : string -> option string;
  (** [MoodleFileObject.meta_prefix] *)
  meta_prefix : MoodleFileObject -> string;
  (** [src.compute_service.text.clean_text] *)
  clean_text : string -> string;
  (** [chunk_splitter.split_text] *)
  split_text : string -> list string;
  (** [bi_encoder.encode] *)
  bi_encoder_encode : list string -> list Dense;
  (** [bm25.embed] *)
  bm25_embed : list string -> list Sparse;
  (** the order in which [Pool.imap_unordered] hands back the results of the
      submitted items *)
  completion_order : list MoodleFileObject -> list MoodleFileObject;
  (** the workers the pool had started, among those of the results not yet
      consumed, when it was terminated, and how far each had come *)
  ran_ahead : list MoodleFileObject -> list (MoodleFileObject * Progress);
}.

Section Model.
Context `{C : Collaborators}.

(** The named vectors of a point: [{"dense": ..., "bm25": ...}]. *)
Record Vectors := {
  dense : Dense;
  bm25 : Sparse;
}.

(** A record of the collection (its generated id is left out). *)
Record Point := {
  payload : Chunk;
  vector : Vectors;
}.

(** The calls the program makes. *)
Inductive Event :=
| EvFget (object_name : string)          (* [minio_client.fget_object] *)
| EvExtract (object_name : string)       (* [pymupdf4llm.process_document] *)
| EvCount (f : Filter)                   (* [qdrant.count] *)
| EvDelete (f : Filter)                  (* [qdrant.delete] *)
| EvEncodeDense (texts : list string)    (* [bi_encoder.encode] *)
| EvEncodeSparse (texts : list string)   (* [bm25.embed] *)
| EvUpload (points : list Point)         (* [qdrant.upload_collection] *)
| EvPool (items : list MoodleFileObject) (* [pool.imap_unordered] *)
| EvPipeline (obj : MoodleFileObject)    (* [object_pipeline], in a worker *)
| EvFetchCorpora.                        (* [fetch_corpora] *)

(** The state the program acts on.  A file is the string stored in it. *)
Record World := {
  (** the local mirror: [s3/<object name>] *)
  s3_dir : gmap string string;
  (** the text cache: [cache/text-<version>/<object name>] *)
  cache_dir : gmap (string * string) string;
  (** the Qdrant collection *)
  store : list Point;
  (** the calls made so far, oldest first *)
  trace : list Event;
}.

Definition set_s3_dir (m : gmap string string) (w : World) : World :=
  {| s3_dir := m; cache_dir := cache_dir w; store := store w; trace := trace w |}.

Definition set_cache_dir (m : gmap (string * string) string) (w : World) : World :=
  {| s3_dir := s3_dir w; cache_dir := m; store := store w; trace := trace w |}.

Definition set_store (s : list Point) (w : World) : World :=
  {| s3_dir := s3_dir w; cache_dir := cache_dir w; store := s; trace := trace w |}.

Definition log (e : Event) (w : World) : World :=
  {| s3_dir := s3_dir w; cache_dir := cache_dir w; store := store w;
     trace := trace w ++ [e] |}.

(** *** Computations that act on the world and may raise *)

Definition M (A : Type) : Type := World -> Res A * World.

Definition ret {A} (a : A) : M A := fun w => (Ok a, w).

Definition raise {A} (e : Exn) : M A := fun w => (Raise e, w).

Definition bind {A B} (m : M A) (k : A -> M B) : M B :=
  fun w => match m w with
           | (Ok a, w') => k a w'
           | (Raise e, w') => (Raise e, w')
           end.

Definition modify (f : World -> World) : M unit := fun w => (Ok tt, f w).

Definition gets {A} (f : World -> A) : M A := fun w => (Ok (f w), w).

End Model.

Notation "x <- m ;; k" := (bind m (fun x => k))
  (at level 100, m at next level, right associativity).
Notation "m ;;; k" := (bind m (fun _ => k))
  (at level 100, right associativity).

(** ** The program *)

(** [str.endswith]: the last [len(suffix)] characters are [suffix]. *)
Definition endswith (s suffix : string) : bool :=
  let n := String.length s in
  let k := String.length suffix in
  Nat.leb k n && String.eqb (String.substring (n - k) k s) suffix.

Definition carriage_return : ascii := ascii_of_nat 13.
Definition line_feed : ascii := ascii_of_nat 10.

(** What [f.read()] returns for a file opened in text mode with the default
    [newline=None]: every ["\r\n"] and every other ["\r"] of the stored
    string is a ["\n"]. *)
Fixpoint universal_newlines (stored : string) : string :=
  match stored with
  | EmptyString => EmptyString
  | String a rest =>
      if Ascii.eqb a carriage_return then
        match rest with
        | String b rest' =>
            if Ascii.eqb b line_feed
            then String line_feed (universal_newlines rest')
            else String line_feed (universal_newlines rest)
        | EmptyString => String line_feed EmptyString
        end
      else String a (universal_newlines rest)
  end.

Section Program.
Context `{C : Collaborators}.

(** *** Calls to the vector store and to the encoders *)

(** [qdrant.count(QDRANT_COLLECTION, count_filter=f).count] *)
Definition qdrant_count (f : Filter) : M nat :=
  fun w =>
    (Ok (length (filter (fun p => filter_matches f (payload p)) (store w))),
     log (EvCount f) w).

(** [qdrant.delete(QDRANT_COLLECTION, FilterSelector(filter=f), wait=True)] *)
Definition qdrant_delete (f : Filter) : M unit :=
  modify (fun w =>
    log (EvDelete f)
        (set_store (filter (fun p => ¬ filter_matches f (payload p)) (store w)) w)).

(** [qdrant.upload_collection(QDRANT_COLLECTION, payload=..., vectors=...)]:
    one new point per (payload, vector) pair. *)
Definition qdrant_upload_collection (payloads : list Chunk)
    (vectors : list Vectors) : M unit :=
  let points := zip_with Build_Point payloads vectors in
  modify (fun w => log (EvUpload points) (set_store (store w ++ points) w)).

Definition encode_dense (texts : list string) : M (list Dense) :=
  fun w => (Ok (bi_encoder_encode texts), log (EvEncodeDense texts) w).

Definition encode_sparse (texts : list string) : M (list Sparse) :=
  fun w => (Ok (bm25_embed texts), log (EvEncodeSparse texts) w).

(** *** [save_file_chunks_to_qdrant] (the index writer) *)

Definition save_file_chunks_to_qdrant (chunks : list Chunk) : M unit :=
  match chunks with
  | [] => ret tt
  | chunk0 :: _ =>
      let ref := document_ref chunk0 in
      let duplicates := duplicates_filter ref in
      exact_match <- qdrant_count duplicates ;;
      if decide (exact_match = length chunks) then ret tt
      else
        qdrant_delete duplicates ;;;
        let texts := map text chunks in
        dense_vectors <- encode_dense texts ;;
        sparse_vectors <- encode_sparse texts ;;
        let vectors := zip_with Build_Vectors dense_vectors sparse_vectors in
        qdrant_upload_collection chunks vectors
  end.

(** *** [object_pipeline] (the per-document worker) *)

(** [minio_client.fget_object(bucket, name, "s3/" + name)] *)
Definition fget_object (s3_object_name : string) : M unit :=
  fun w =>
    match bucket s3_object_name with
    | Some bytes =>
        (Ok tt, log (EvFget s3_object_name)
                    (set_s3_dir (<[s3_object_name := bytes]> (s3_dir w)) w))
    | None => (Raise S3Error, log (EvFget s3_object_name) w)
    end.

(** [pymupdf.Document(file_path)] followed by
    [join_chunks(pymupdf4llm.process_document(doc, ...))] *)
Definition extract (s3_object_name : string) : M string :=
  fun w =>
    let w' := log (EvExtract s3_object_name) w in
    match s3_dir w !! s3_object_name with
    | Some bytes =>
        match pdf_to_text bytes with
        | Some output => (Ok output, w')
        | None => (Raise FileDataError, w')
        end
    | None => (Raise FileDataError, w')
    end.

(** The cache key of a raw file:
    [Path("cache") / f"text-{PDF_TO_TEXT_VERSION}" / s3_object_name]. *)
Definition text_path (s3_object_name : string) : string * string :=
  (PDF_TO_TEXT_VERSION, s3_object_name).

(** [open(text_path, mode)] and what is done with the file. *)
Definition open_w (path : string * string) : M unit :=
  modify (fun w => set_cache_dir (<[path := ""]> (cache_dir w)) w).

Definition write (path : string * string) (output : string) : M unit :=
  modify (fun w => set_cache_dir (<[path := output]> (cache_dir w)) w).

(** The segments of a document, tagged; [j] is the index [enumerate] gives. *)
Definition tag_chunks (obj : MoodleFileObject) (splitted : list string)
    : list Chunk :=
  imap (fun j segment =>
          {| text := segment;
             document_ref := {| ref_course_id := course_id obj;
                                ref_module_id := module_id obj;
                                ref_filename := filename obj |};
             chunk_ref := {| chunk_number := j |} |})
       splitted.

(** Lines 86-88: the raw file is fetched unless the local mirror has it. *)
Definition ensure_file (s3_object_name : string) : M unit :=
  file_exists <- gets (fun w => bool_decide (is_Some (s3_dir w !! s3_object_name))) ;;
  if file_exists then ret tt else fget_object s3_object_name.

(** Lines 90-104: if the cache file exists, the text is what reading it in
    text mode gives; otherwise the cache file is opened for writing, the
    document converted inside the [with] block and the text written to the
    file. *)
Definition text_of_file (s3_object_name : string) : M string :=
  cached <- gets (fun w => cache_dir w !! text_path s3_object_name) ;;
  match cached with
  | None =>
      open_w (text_path s3_object_name) ;;;
      output <- extract s3_object_name ;;
      write (text_path s3_object_name) output ;;;
      ret output
  | Some stored => ret (universal_newlines stored)
  end.

Definition object_pipeline (obj : MoodleFileObject) : M (list Chunk) :=
  let s3_object_name :=
    content_to_minio_object (course_id obj) (module_id obj) (filename obj) in
  ensure_file s3_object_name ;;;
  output <- text_of_file s3_object_name ;;
  let page_text := clean_text (meta_prefix obj +:+ output) in
  let splitted := split_text page_text in
  ret (tag_chunks obj splitted).

(** *** [corpora_to_qdrant] (fan-out over the catalog) *)

(** A worker that the pool stops at [progress]. *)
Definition run_until (progress : Progress) (obj : MoodleFileObject) : M unit :=
  let s3_object_name :=
    content_to_minio_object (course_id obj) (module_id obj) (filename obj) in
  modify (log (EvPipeline obj)) ;;;
  match progress with
  | Fetched => ensure_file s3_object_name
  | Converting =>
      ensure_file s3_object_name ;;;
      cached <- gets (fun w => cache_dir w !! text_path s3_object_name) ;;
      match cached with
      | None =>
          open_w (text_path s3_object_name) ;;;
          modify (log (EvExtract s3_object_name))
      | Some _ => ret tt
      end
  | Finished => object_pipeline obj ;;; ret tt
  end.

(** [pool.terminate()], as the [with] block is left on an exception: what
    the workers ahead of the loop have done stays done, whether or not they
    raised. *)
Fixpoint terminate (work : list (MoodleFileObject * Progress)) : M unit :=
  match work with
  | [] => ret tt
  | (obj, progress) :: rest =>
      fun w => terminate rest (run_until progress obj w).2
  end.

(** [m], followed by [cleanup] if it raises; the exception goes on. *)
Definition on_raise {A} (m : M A) (cleanup : M unit) : M A :=
  fun w => match m w with
           | (Ok a, w') => (Ok a, w')
           | (Raise e, w') => (Raise e, (cleanup w').2)
           end.

(** The body of [for chunks in file_chunks]: the results are consumed in
    completion order; a result that is an exception is raised again by the
    iterator, which ends the loop and, with it, the pool. *)
Fixpoint for_file_chunks (order : list MoodleFileObject) : M unit :=
  match order with
  | [] => ret tt
  | item :: rest =>
      chunks <- on_raise (modify (log (EvPipeline item)) ;;; object_pipeline item)
                         (terminate (ran_ahead rest)) ;;
      (match chunks with
       | [] => ret tt
       | _ :: _ => save_file_chunks_to_qdrant chunks
       end) ;;;
      for_file_chunks rest
  end.

Definition pdf_items (corpora : Corpora) : list MoodleFileObject :=
  filter (fun item => endswith (filename item) ".pdf") (moodle_files corpora).

Definition corpora_to_qdrant (corpora : Corpora) : M unit :=
  let items := pdf_items corpora in
  modify (log (EvPool items)) ;;;
  for_file_chunks (completion_order items).

(** *** [no_corpora_changes] and [main] *)

Definition no_corpora_changes (prev_corpora : option Corpora)
    (corpora : Corpora) : bool :=
  match prev_corpora with
  | None => false
  | Some prev =>
      let _prev := map model_dump (moodle_files prev) in
      let _curr := map model_dump (moodle_files corpora) in
      bool_decide (_prev = _curr)
  end.

(** [fetch_corpora()]: the reply of the catalog API at this poll, or the
    exception the request raised. *)
Definition fetch_corpora (reply : Res Corpora) : M Corpora :=
  fun w => (reply, log EvFetchCorpora w).

(** One turn of the [while True] loop of [main]; the result is the new value
    of [prev_corpora]. *)
Definition main_iteration (prev_corpora : option Corpora)
    (reply : Res Corpora) : M (option Corpora) :=
  corpora <- fetch_corpora reply ;;
  if no_corpora_changes prev_corpora corpora then ret prev_corpora
  else corpora_to_qdrant corpora ;;; ret (Some corpora).

(** The loop of [main] over the replies of the first polls.  It returns only
    when the replies are used up (the loop is then still running, with the
    [prev_corpora] returned) or when an exception leaves the loop. *)
Fixpoint main_loop (prev_corpora : option Corpora)
    (replies : list (Res Corpora)) : M (option Corpora) :=
  match replies with
  | [] => ret prev_corpora
  | reply :: later =>
      prev_corpora' <- main_iteration prev_corpora reply ;;
      main_loop prev_corpora' later
  end.

Definition main (replies : list (Res Corpora)) : M (option Corpora) :=
  main_loop None replies.

End Program.

(** ** Observations on traces and stores *)

Section Observations.
Context `{C : Collaborators}.

(** The points of a collection that carry a given document-ref in the sense
    of the filter of [save_file_chunks_to_qdrant]. *)
Definition records_of (ref : DocumentRef) (s : list Point) : list Point :=
  filter (fun p => filter_matches (duplicates_filter ref) (payload p)) s.

(** The points of a collection that do not. *)
Definition records_beside (ref : DocumentRef) (s : list Point) : list Point :=
  filter (fun p => ¬ filter_matches (duplicates_filter ref) (payload p)) s.

(** The points a batch is uploaded as. *)
Definition fresh_points (chunks : list Chunk) : list Point :=
  let texts := map text chunks in
  zip_with Build_Point chunks
    (zip_with Build_Vectors (bi_encoder_encode texts) (bm25_embed texts)).

Definition is_extract (e : Event) : bool :=
  match e with EvExtract _ => true | _ => false end.

Definition is_pool (e : Event) : bool :=
  match e with EvPool _ => true | _ => false end.


(** Calls that reach the index writer's side: the store and the encoders. *)
Definition is_index_call (e : Event) : bool :=
  match e with
  | EvCount _ | EvDelete _ | EvEncodeDense _ | EvEncodeSparse _ | EvUpload _ => true
  | _ => false
  end.

(** How many events of a trace satisfy a test. *)
Definition count_events (test : Event -> bool) (tr : list Event) : nat :=
  length (List.filter test tr).

(** The chunks of a document whose extracted text is [output]. *)
Definition chunks_of (obj : MoodleFileObject) (output : string) : list Chunk :=
  tag_chunks obj (split_text (clean_text (meta_prefix obj +:+ output))).

(** A carriage return occurs in [s]. *)
Fixpoint has_carriage_return (s : string) : bool :=
  match s with
  | EmptyString => false
  | String a rest => Ascii.eqb a carriage_return || has_carriage_return rest
  end.

(** The object name and the cache key of a catalog entry. *)
Definition object_name (obj : MoodleFileObject) : string :=
  content_to_minio_object (course_id obj) (module_id obj) (filename obj).

Definition cache_key (obj : MoodleFileObject) : string * string :=
  text_path (object_name obj).

(** [m] never changes the observation [f] of the world. *)
Definition preserves {A B} (f : World → B) (m : M A) : Prop :=
  ∀ w, f (m w).2 = f w.

(** [m] only adds events at the end of the trace. *)
Definition appends {A} (m : M A) : Prop :=
  ∀ w, ∃ events, trace (m w).2 = trace w ++ events.

End Observations.

(** ** A concrete set of collaborators *)

Module Demo.

(** Pieces of at most [S n] characters. *)
Fixpoint chop_aux (n : nat) (s : string) (room : nat) (piece : string)
    : list string :=
  match s with
  | EmptyString => match piece with EmptyString => [] | _ => [piece] end
  | String a rest =>
      match room with
      | O => piece :: chop_aux n rest n (String a EmptyString)
      | S room' => chop_aux n rest room' (piece +:+ String a EmptyString)
      end
  end.

Definition chop (n : nat) (s : string) : list string := chop_aux n s (S n) "".

Definition show (v : Value) : string :=
  match v with
  | VInt z => pretty z
  | VStr s => s
  end.

(** A PDF is the magic ["%PDF:"] followed by its text; anything else is not
    a readable document. *)
Definition read_pdf (bytes : string) : option string :=
  if String.prefix "%PDF:" bytes
  then Some (String.substring 5 (String.length bytes - 5) bytes)
  else None.

Definition objects : list (string * string) :=
  [ ("moodle/1/2/a.pdf", "%PDF:lecture one, about search");
    ("moodle/1/3/broken.pdf", "not a pdf");
    ("moodle/1/4/blank.pdf", "%PDF:");
    ("moodle/1/5/b.pdf", "%PDF:lecture two");
    ("moodle/1/7/mac.pdf",
     "%PDF:one" +:+ String carriage_return "two") ].

Definition collaborators : Collaborators :=
  {| Dense := nat;
     Sparse := list nat;
     content_to_minio_object := fun c m f =>
       "moodle/" +:+ pretty c +:+ "/" +:+ pretty m +:+ "/" +:+ f;
     PDF_TO_TEXT_VERSION := "1";
     bucket := fun name => snd <$> List.find (fun kv => String.eqb kv.1 name) objects;
     pdf_to_text := read_pdf;
     meta_prefix := fun obj =>
       String.concat "" (map (fun kv => kv.1 +:+ "=" +:+ show kv.2 +:+ ";")
                             (other_fields obj));
     clean_text := fun t => t;
     split_text := chop 11;
     bi_encoder_encode := map String.length;
     bm25_embed := map (fun t => [String.length t]);
     completion_order := fun items => items;
     ran_ahead := map (fun item => (item, Finished)) |}.

Definition entry (m : Z) (name : string) (fields : list (string * Value))
    : MoodleFileObject :=
  {| course_id := 1; module_id := m; filename := name; other_fields := fields |}.

Definition a_pdf : MoodleFileObject := entry 2 "a.pdf" [("course", VStr "IR")].
Definition broken_pdf : MoodleFileObject :=
  entry 3 "broken.pdf" [("course", VStr "IR")].
Definition blank_pdf : MoodleFileObject := entry 4 "blank.pdf" [].
Definition b_pdf : MoodleFileObject := entry 5 "b.pdf" [].
Definition notes_txt : MoodleFileObject := entry 6 "notes.txt" [].

Definition ref_of (obj : MoodleFileObject) : DocumentRef :=
  {| ref_course_id := course_id obj;
     ref_module_id := module_id obj;
     ref_filename := filename obj |}.

Definition chunk (obj : MoodleFileObject) (j : nat) (segment : string) : Chunk :=
  {| text := segment; document_ref := ref_of obj;
     chunk_ref := {| chunk_number := j |} |}.

Definition point (c : Chunk) : @Point collaborators :=
  @Build_Point collaborators c
    (@Build_Vectors collaborators (String.length (text c))
                    [String.length (text c)]).

(** The three chunks of [a.pdf]. *)
Definition a_chunk0 : Chunk := chunk a_pdf 0 "course=IR;le".
Definition a_rest : list Chunk :=
  [chunk a_pdf 1 "cture one, a"; chunk a_pdf 2 "bout search"].
Definition a_chunks : list Chunk := a_chunk0 :: a_rest.

Definition world_with (points : list (@Point collaborators))
    : @World collaborators :=
  {| s3_dir := ∅; cache_dir := ∅; store := points; trace := [] |}.

Definition empty_world : @World collaborators := world_with [].

(** A collection with one stale point of [a.pdf] and a point of [b.pdf]. *)
Definition stale_world : @World collaborators :=
  world_with [point (chunk a_pdf 0 "old text"); point (chunk b_pdf 0 "lecture two")].

(** A collection that holds the three chunks of [a.pdf]. *)
Definition indexed_world : @World collaborators :=
  world_with (map point a_chunks ++ [point (chunk b_pdf 0 "lecture two")]).

(** A collection with two points of an earlier version of [blank.pdf]. *)
Definition blank_world : @World collaborators :=
  world_with [point (chunk blank_pdf 0 "once it had"); point (chunk blank_pdf 1 " text")].

Definition small_catalog : Corpora := {| moodle_files := [a_pdf; notes_txt] |}.

Definition catalog : Corpora :=
  {| moodle_files := [a_pdf; notes_txt; broken_pdf; b_pdf] |}.

(** The world after a first poll that returned [small_catalog]. *)
Definition after_first_poll : @World collaborators :=
  (@main_iteration collaborators None (Ok small_catalog) empty_world).2.

End Demo.

(** ** Further observations *)

Section MoreObservations.
Context `{C : Collaborators}.

(** The document-ref [object_pipeline] tags the chunks of an entry with. *)
Definition entry_ref (obj : MoodleFileObject) : DocumentRef :=
  {| ref_course_id := course_id obj;
     ref_module_id := module_id obj;
     ref_filename := filename obj |}.

(** Every file of [w] is in [w'], with the same content. *)
Definition files_kept (w w' : World) : Prop :=
  s3_dir w ⊆ s3_dir w' ∧ cache_dir w ⊆ cache_dir w'.

(** [m] always takes a world to one that is [R]-related to it. *)
Definition respects {A} (R : World → World → Prop) (m : M A) : Prop :=
  ∀ w, R w (m w).2.

(** [output] is a text that a run of the worker can have returned for an
    entry whose cache file now holds [stored]: the text as it was written,
    or as it reads back. *)
Definition text_of_cache (stored output : string) : Prop :=
  output = stored ∨ output = universal_newlines stored.

(** What the loop over the results has made of the points of one entry it
    has consumed, between the world [w] before and the world [w'] after:
    [output] is the text the worker returned and [chunks] its chunks. *)
Definition indexed_as (item : MoodleFileObject) (w w' : World) : Prop :=
  ∃ stored output,
    cache_dir w' !! cache_key item = Some stored
    ∧ text_of_cache stored output
    ∧ (∀ stored0, cache_dir w !! cache_key item = Some stored0 →
         output = universal_newlines stored0)
    ∧ let before := store w in
      let chunks := chunks_of item output in
      let ref := entry_ref item in
      (chunks = [] ∨ length (records_of ref before) = length chunks →
         records_of ref (store w') = records_of ref before)
      ∧ (chunks ≠ [] → length (records_of ref before) ≠ length chunks →
           records_of ref (store w') = fresh_points chunks).

End MoreObservations.

(** ** Start-up: the collection ([prepare.py], lines 36-60) *)

Module Setup.

(** [models.Distance], [models.Modifier], [models.PayloadSchemaType] *)
Inductive Distance := Cosine | Euclid | Dot | Manhattan.
Inductive Modifier := NoModifier | Idf.
Inductive PayloadSchemaType := Keyword | Integer | Float | Bool | Text.

(** [models.VectorParams], [models.SparseVectorParams] *)
Record VectorParams := { size : nat; distance : Distance }.
Record SparseVectorParams := { modifier : Modifier }.

(** What the server knows of a collection besides its points. *)
Record Collection := {
  vectors_config : gmap string VectorParams;
  sparse_vectors_config : gmap string SparseVectorParams;
  payload_schema : gmap string PayloadSchemaType;
}.

(** [qdrant.collection_exists(name)], on the collections of the server. *)
Definition collection_exists (name : string)
    (server : gmap string Collection) : bool :=
  bool_decide (is_Some (server !! name)).

(** [qdrant.create_collection(...)], called for a name that is free. *)
Definition create_collection (name : string)
    (vectors : gmap string VectorParams)
    (sparse_vectors : gmap string SparseVectorParams)
    (server : gmap string Collection) : gmap string Collection :=
  <[name := {| vectors_config := vectors;
               sparse_vectors_config := sparse_vectors;
               payload_schema := ∅ |}]> server.

(** [qdrant.create_payload_index(name, field, field_schema=...)] *)
Definition create_payload_index (name field : string)
    (field_schema : PayloadSchemaType)
    (server : gmap string Collection) : gmap string Collection :=
  alter (fun c => {| vectors_config := vectors_config c;
                     sparse_vectors_config := sparse_vectors_config c;
                     payload_schema := <[field := field_schema]> (payload_schema c) |})
        name server.

(** The block run when the module is loaded; [dimension] is
    [bi_encoder.get_sentence_embedding_dimension()]. *)
Definition init_collection (QDRANT_COLLECTION : string) (dimension : nat)
    (server : gmap string Collection) : gmap string Collection :=
  if negb (collection_exists QDRANT_COLLECTION server) then
    let server :=
      create_collection QDRANT_COLLECTION
        {[ "dense" := {| size := dimension; distance := Dot |} ]}
        {[ "bm25" := {| modifier := Idf |} ]}
        server in
    let server :=
      create_payload_index QDRANT_COLLECTION "document-ref.course_id" Integer server in
    let server :=
      create_payload_index QDRANT_COLLECTION "document-ref.module_id" Integer server in
    create_payload_index QDRANT_COLLECTION "document-ref.filename" Keyword server
  else server.

(** The schema type that indexes a value for exact match. *)
Definition schema_of (v : Value) : PayloadSchemaType :=
  match v with
  | VInt _ => Integer
  | VStr _ => Keyword
  end.

End Setup.

(** ** [src/modules/moodle/schemas.py] *)

Module MoodleSchemas.

(** [FileOnlyContentRef]; its [type] is the constant ["file"].
    [UploadableContentRef] adds two optional time stamps and inherits
    [to_object]. *)
Record FileOnlyContentRef := {
  course_id : Z;
  module_id : Z;
  filename : string;
}.

(** [f"moodle/{self.course_id}/{self.module_id}/{self.filename}"]; an [int]
    is formatted in decimal, with a leading [-] if negative. *)
Definition to_object (self : FileOnlyContentRef) : string :=
  "moodle/" +:+ pretty (course_id self) +:+ "/" +:+ pretty (module_id self)
    +:+ "/" +:+ filename self.

(** No character of [s] is a slash. *)
Fixpoint no_slash (s : string) : Prop :=
  match s with
  | EmptyString => True
  | String a s' => a ≠ "/"%char ∧ no_slash s'
  end.

End MoodleSchemas.

(** ** [src/modules/search/schemas.py]: the two ["before"] validators *)

Module SearchSchemas.

(** The values of the raw [data] dict.  Strings are byte strings (UTF-8);
    [POther] is any value of another type (a float, a dict), of which only
    the truth value matters here. *)
#[warnings="-register-all"]
Inductive PyVal :=
| PNone
| PBool (b : bool)
| PInt (z : Z)
| PStr (s : string)
| PList (items : list PyVal)
| POther (truth : bool).

(** A validator returns the dict, or raises [AttributeError] when it calls
    [split] on a value that is no string. *)
Inductive Outcome (A : Type) :=
| Returns (a : A)
| AttributeError.
Arguments Returns {A} a.
Arguments AttributeError {A}.

(** Truth value testing. *)
Definition truthy (v : PyVal) : bool :=
  match v with
  | PNone => false
  | PBool b => b
  | PInt z => negb (Z.eqb z 0)
  | PStr s => negb (String.eqb s "")
  | PList items => match items with [] => false | _ :: _ => true end
  | POther truth => truth
  end.

(** [a or b] *)
Definition or_ (a b : PyVal) : PyVal := if truthy a then a else b.

(** [data.get(k)] *)
Definition get (data : gmap string PyVal) (k : string) : PyVal :=
  default PNone (data !! k).

(** [s.split(sep)[0]] for a separator that is not empty: what comes before
    the leftmost occurrence of [sep], or all of [s] if there is none. *)
Fixpoint before_first (sep s : string) : string :=
  if String.prefix sep s then ""
  else match s with
       | EmptyString => ""
       | String a s' => String a (before_first sep s')
       end.

Definition newline : string := String (ascii_of_nat 10) "".

(** The characters of the class [[a-zA-Z0-9 ]]. *)
Definition is_normal (a : ascii) : bool :=
  let n := nat_of_ascii a in
  (Nat.leb 97 n && Nat.leb n 122)
  || (Nat.leb 65 n && Nat.leb n 90)
  || (Nat.leb 48 n && Nat.leb n 57)
  || Nat.eqb n 32.

(** [re.sub(r"[^a-zA-Z0-9 ]", "", s)] *)
Fixpoint only_normal (s : string) : string :=
  match s with
  | EmptyString => ""
  | String a s' =>
      if is_normal a then String a (only_normal s') else only_normal s'
  end.

(** [MoodleSource.set_breadcrumbs_and_display_name] *)
Definition set_breadcrumbs_and_display_name (data : gmap string PyVal)
    : Outcome (gmap string PyVal) :=
  match data !! "course_name", data !! "module_name" with
  | Some course_name, Some module_name =>
      match course_name with
      | PStr course_name =>
          let course_name := before_first " / " course_name in
          let data :=
            <["breadcrumbs" := PList [PStr "Moodle"; PStr course_name; module_name]]>
              data in
          Returns (<["display_name" := module_name]> data)
      | _ => AttributeError
      end
  | _, _ => Returns data
  end.

(** [TelegramSource.set_breadcrumbs] *)
Definition set_breadcrumbs (data : gmap string PyVal)
    : Outcome (gmap string PyVal) :=
  match data !! "chat_title" with
  | None => Returns data
  | Some chat_title =>
      let data := <["breadcrumbs" := PList [PStr "Telegram"; chat_title]]> data in
      let text := or_ (get data "text") (get data "caption") in
      let named display_name :=
        Returns (<["display_name" :=
                     PStr (if String.eqb display_name "" then "-"
                           else display_name)]> data) in
      if truthy text then
        match text with
        | PStr text => named (only_normal (before_first newline text))
        | _ => AttributeError
        end
      else named ""
  end.

(** [sep] occurs in [s]. *)
Definition occurs (sep s : string) : Prop :=
  ∃ a b, s = a +:+ sep +:+ b.

(** Every character of [s] is of the class [[a-zA-Z0-9 ]]. *)
Fixpoint all_normal (s : string) : bool :=
  match s with
  | EmptyString => true
  | String a s' => is_normal a && all_normal s'
  end.

End SearchSchemas.

(** * Properties *)

Section Properties.
Context `{C : Collaborators}.

(** ** The document-ref filter *)

(** A payload satisfies the filter built from [ref] exactly when its
    document-ref is [ref]. *)
Lemma filter_matches_duplicates (ref : DocumentRef) (p : Chunk) :
  filter_matches (duplicates_filter ref) p ↔ document_ref p = ref.
Proof.
  unfold filter_matches, duplicates_filter, condition_holds; cbn.
  rewrite !andb_True, !bool_decide_spec.
  destruct ref as [c m f], p as [t [c' m' f'] n]; cbn.
  unfold payload_field; cbv [String.append].
  repeat match goal with
         | |- context [decide (?a = ?b)] =>
             destruct (decide (a = b)); [try discriminate | try done]
         end.
  cbn. split.
  - by intros ([= ->] & [= ->] & [= ->] & _).
  - by intros [= -> -> ->].
Qed.

Lemma records_of_all (ref : DocumentRef) (s : list Point) :
  Forall (fun p => document_ref (payload p) = ref) s → records_of ref s = s.
Proof.
  unfold records_of. induction 1 as [|p s Hp _ IH]; [done|].
  rewrite filter_cons_True; [by rewrite IH|].
  by apply filter_matches_duplicates.
Qed.

Lemma records_of_beside (ref : DocumentRef) (s : list Point) :
  records_of ref (records_beside ref s) = [].
Proof.
  unfold records_of, records_beside. induction s as [|p s IH]; [done|].
  rewrite (filter_cons (fun p => ¬ _)). case_decide; [|done].
  by rewrite filter_cons_False.
Qed.

Lemma records_beside_beside (ref : DocumentRef) (s : list Point) :
  records_beside ref (records_beside ref s) = records_beside ref s.
Proof.
  unfold records_beside. induction s as [|p s IH]; [done|].
  rewrite (filter_cons _ p s). case_decide; [|done].
  rewrite filter_cons_True by done. by rewrite IH.
Qed.

Lemma records_beside_all (ref : DocumentRef) (s : list Point) :
  Forall (fun p => document_ref (payload p) = ref) s → records_beside ref s = [].
Proof.
  unfold records_beside. induction 1 as [|p s Hp _ IH]; [done|].
  rewrite filter_cons_False; [done|].
  intros Hn. apply Hn. by apply filter_matches_duplicates.
Qed.

(** The points of a batch carry the payloads of the batch, in order, when
    each encoder returns one vector per text. *)
Lemma fresh_points_payload (chunks : list Chunk) :
  length (bi_encoder_encode (map text chunks)) = length chunks →
  length (bm25_embed (map text chunks)) = length chunks →
  payload <$> fresh_points chunks = chunks.
Proof.
  intros Hd Hs. unfold fresh_points.
  rewrite fmap_zip_with_l; [done..|].
  rewrite length_zip_with. lia.
Qed.

Lemma fresh_points_ref (ref : DocumentRef) (chunks : list Chunk) :
  Forall (fun c => document_ref c = ref) chunks →
  Forall (fun p => document_ref (payload p) = ref) (fresh_points chunks).
Proof.
  unfold fresh_points.
  generalize (zip_with Build_Vectors (bi_encoder_encode (map text chunks))
                (bm25_embed (map text chunks))) as vectors.
  intros vectors Hall. revert vectors.
  induction Hall as [|c chunks Hc _ IH]; intros [|v vectors]; cbn;
    constructor; auto.
Qed.

(** ** The index writer *)

(** C1.  A non-empty batch whose chunks all carry the document-ref [ref],
    written while the number of stored points under [ref] differs from the
    length of the batch (each encoder returning one vector per text): the
    call returns, the stale points under [ref] are deleted first and the
    batch is then uploaded, so that afterwards the points under [ref] are
    exactly the batch's (payload with dense and sparse vector), every other
    point is kept, and the files are untouched. *)
Theorem save_replaces_stale_records (chunks : list Chunk) (ref : DocumentRef)
    (w : World) :
  chunks ≠ [] →
  Forall (fun c => document_ref c = ref) chunks →
  length (records_of ref (store w)) ≠ length chunks →
  length (bi_encoder_encode (map text chunks)) = length chunks →
  length (bm25_embed (map text chunks)) = length chunks →
  ∃ w', save_file_chunks_to_qdrant chunks w = (Ok tt, w')
    ∧ store w' = records_beside ref (store w) ++ fresh_points chunks
    ∧ records_of ref (store w') = fresh_points chunks
    ∧ payload <$> records_of ref (store w') = chunks
    ∧ records_beside ref (store w') = records_beside ref (store w)
    ∧ trace w' = trace w ++
        [ EvCount (duplicates_filter ref);
          EvDelete (duplicates_filter ref);
          EvEncodeDense (map text chunks);
          EvEncodeSparse (map text chunks);
          EvUpload (fresh_points chunks) ]
    ∧ s3_dir w' = s3_dir w
    ∧ cache_dir w' = cache_dir w.
Proof.
  intros Hne Hall Hcount Hd Hs.
  destruct chunks as [|chunk0 rest]; [done|].
  assert (document_ref chunk0 = ref) as Href by (by inversion Hall).
  eexists. split.
  { unfold save_file_chunks_to_qdrant, bind, qdrant_count. rewrite Href.
    fold (records_of ref (store w)). rewrite decide_False by done.
    unfold qdrant_delete, encode_dense, encode_sparse,
      qdrant_upload_collection, modify.
    fold (fresh_points (chunk0 :: rest)). reflexivity. }
  cbn [store trace s3_dir cache_dir set_store log].
  fold (records_beside ref (store w)).
  assert (records_of ref (records_beside ref (store w) ++ fresh_points (chunk0 :: rest))
          = fresh_points (chunk0 :: rest)) as Hof.
  { unfold records_of. rewrite filter_app.
    fold (records_of ref (records_beside ref (store w))).
    fold (records_of ref (fresh_points (chunk0 :: rest))).
    rewrite records_of_beside.
    rewrite (records_of_all ref (fresh_points (chunk0 :: rest))); [done|].
    by apply fresh_points_ref. }
  split_and!; try done.
  - by rewrite Hof, fresh_points_payload.
  - unfold records_beside at 1. rewrite filter_app.
    fold (records_beside ref (records_beside ref (store w))).
    fold (records_beside ref (fresh_points (chunk0 :: rest))).
    rewrite records_beside_beside.
    rewrite (records_beside_all ref (fresh_points (chunk0 :: rest))).
    + apply app_nil_r.
    + by apply fresh_points_ref.
  - by rewrite <- !app_assoc.
Qed.

(** C2.  A non-empty batch written while the number of stored points under
    the document-ref of its first chunk equals the length of the batch: the
    call returns after the count, which is the only call it makes (no
    delete, no encoding, no upload); the collection and the files are
    unchanged. *)
Theorem save_skips_on_equal_count (chunk0 : Chunk) (rest : list Chunk)
    (w : World) :
  length (records_of (document_ref chunk0) (store w)) = length (chunk0 :: rest) →
  ∃ w', save_file_chunks_to_qdrant (chunk0 :: rest) w = (Ok tt, w')
    ∧ store w' = store w
    ∧ trace w' = trace w ++ [EvCount (duplicates_filter (document_ref chunk0))]
    ∧ count_events is_index_call (trace w') = S (count_events is_index_call (trace w))
    ∧ s3_dir w' = s3_dir w
    ∧ cache_dir w' = cache_dir w.
Proof.
  intros Hcount. eexists. split.
  { unfold save_file_chunks_to_qdrant, bind, qdrant_count.
    fold (records_of (document_ref chunk0) (store w)).
    rewrite decide_True by done. reflexivity. }
  cbn. split_and!; try done.
  unfold count_events. rewrite List.filter_app, length_app. cbn. lia.
Qed.

(** ** What a computation leaves alone *)

Lemma preserves_ret {A B} (f : World → B) (a : A) : preserves f (ret a).
Proof. by intros w. Qed.

Lemma preserves_raise {A B} (f : World → B) (e : Exn) :
  preserves f (raise (A := A) e).
Proof. by intros w. Qed.

Lemma preserves_gets {A B} (f : World → B) (g : World → A) :
  preserves f (gets g).
Proof. by intros w. Qed.

Lemma preserves_bind {A A' B} (f : World → B) (m : M A) (k : A → M A') :
  preserves f m → (∀ a, preserves f (k a)) → preserves f (bind m k).
Proof.
  intros Hm Hk w. unfold bind. specialize (Hm w).
  destruct (m w) as [[a|e] w1]; cbn in *; [|done].
  by rewrite Hk.
Qed.

Lemma preserves_modify {B} (f : World → B) (g : World → World) :
  (∀ w, f (g w) = f w) → preserves f (modify g).
Proof. intros Hg w. apply Hg. Qed.

Lemma count_events_log (test : Event → bool) (e : Event) (w : World) :
  count_events test (trace (log e w))
  = count_events test (trace w) + (if test e then 1 else 0).
Proof.
  unfold count_events; cbn. rewrite List.filter_app, length_app; cbn.
  by destruct (test e).
Qed.

Lemma count_events_app (test : Event → bool) (tr1 tr2 : list Event) :
  count_events test (tr1 ++ tr2) = count_events test tr1 + count_events test tr2.
Proof. unfold count_events. by rewrite List.filter_app, length_app. Qed.

(** Counts events of a trace that was extended by [log]. *)
Ltac count_logged :=
  unfold count_events; cbn;
  rewrite ?List.filter_app, ?length_app; cbn;
  repeat match goal with
         | H : ?test _ = false |- _ => rewrite ?H
         end;
  cbn; try lia.

(** *** The worker touches neither the collection nor the encoders *)

Lemma ensure_file_store name : preserves store (ensure_file name).
Proof.
  intros w. unfold ensure_file, bind, gets, fget_object, ret.
  case_bool_decide; [done|]. by destruct (bucket name).
Qed.

Lemma text_of_file_store name : preserves store (text_of_file name).
Proof.
  intros w. unfold text_of_file, bind, gets, open_w, extract, write, modify, ret.
  destruct (cache_dir w !! text_path name); [done|]. cbn.
  destruct (s3_dir w !! name) as [bytes|]; [|done].
  by destruct (pdf_to_text bytes).
Qed.

Lemma object_pipeline_store obj : preserves store (object_pipeline obj).
Proof.
  unfold object_pipeline. apply preserves_bind; [apply ensure_file_store|].
  intros _. apply preserves_bind; [apply text_of_file_store|].
  intros output. apply preserves_ret.
Qed.

Lemma ensure_file_count test name :
  test (EvFget name) = false →
  preserves (fun w => count_events test (trace w)) (ensure_file name).
Proof.
  intros Ht w. unfold ensure_file, bind, gets, fget_object, ret.
  case_bool_decide; [done|].
  destruct (bucket name); count_logged.
Qed.

Lemma text_of_file_count test name :
  test (EvExtract name) = false →
  preserves (fun w => count_events test (trace w)) (text_of_file name).
Proof.
  intros Ht w. unfold text_of_file, bind, gets, open_w, extract, write, modify, ret.
  destruct (cache_dir w !! text_path name); [done|]. cbn.
  destruct (s3_dir w !! name) as [bytes|]; [destruct (pdf_to_text bytes)|];
    count_logged.
Qed.

Lemma object_pipeline_count test obj :
  (∀ name, test (EvFget name) = false) →
  (∀ name, test (EvExtract name) = false) →
  preserves (fun w => count_events test (trace w)) (object_pipeline obj).
Proof.
  intros Hf He. unfold object_pipeline.
  apply preserves_bind; [by apply ensure_file_count|].
  intros _. apply preserves_bind; [by apply text_of_file_count|].
  intros output. apply preserves_ret.
Qed.

(** *** The two blocks of the worker, case by case *)

Lemma ensure_file_present name w :
  is_Some (s3_dir w !! name) → ensure_file name w = (Ok tt, w).
Proof.
  intros Hs. unfold ensure_file, bind, gets. by rewrite bool_decide_eq_true_2.
Qed.

Lemma ensure_file_ok name w w' :
  ensure_file name w = (Ok tt, w') →
  is_Some (s3_dir w' !! name) ∧ cache_dir w' = cache_dir w.
Proof.
  unfold ensure_file, bind, gets, fget_object, ret.
  case_bool_decide as Hs; [by intros [= <-]|].
  destruct (bucket name) as [bytes|]; [|done].
  intros [= <-]; cbn. by rewrite lookup_insert_eq.
Qed.




Lemma universal_newlines_has_no_cr (s : string) :
  has_carriage_return (universal_newlines s) = false.
Proof.
  cut (has_carriage_return (universal_newlines s) = false
       ∧ match s with
         | EmptyString => True
         | String _ rest => has_carriage_return (universal_newlines rest) = false
         end); [by intros [? _]|].
  induction s as [|a s [IH IHrest]]; [done|]. split; [|done]. cbn.
  destruct (Ascii.eqb a carriage_return) eqn:Ha.
  - destruct s as [|b s]; [done|].
    by destruct (Ascii.eqb b line_feed).
  - cbn. by rewrite Ha.
Qed.

Lemma text_of_file_hit name w stored :
  cache_dir w !! text_path name = Some stored →
  text_of_file name w = (Ok (universal_newlines stored), w).
Proof. intros Hc. unfold text_of_file, bind, gets. by rewrite Hc. Qed.

Lemma text_of_file_ok name w output w' :
  text_of_file name w = (Ok output, w') →
  s3_dir w' = s3_dir w
  ∧ ((cache_dir w !! text_path name = None
      ∧ cache_dir w' !! text_path name = Some output)
     ∨ (∃ stored, cache_dir w !! text_path name = Some stored
          ∧ output = universal_newlines stored ∧ w' = w)).
Proof.
  unfold text_of_file, bind, gets, open_w, extract, write, modify, ret.
  destruct (cache_dir w !! text_path name) as [stored|] eqn:Hc.
  { intros [= <- <-]. split; [done|]. right. by exists stored. }
  cbn. destruct (s3_dir w !! name) as [bytes|]; [|done].
  destruct (pdf_to_text bytes) as [converted|]; [|done].
  intros [= <- <-]; cbn. split; [done|]. left.
  by rewrite lookup_insert_eq.
Qed.

(** A failed conversion leaves the cache file it had opened, empty. *)
Lemma text_of_file_raise name w e w' :
  text_of_file name w = (Raise e, w') →
  e = FileDataError
  ∧ cache_dir w !! text_path name = None
  ∧ cache_dir w' = <[text_path name := ""]> (cache_dir w)
  ∧ trace w' = trace w ++ [EvExtract name].
Proof.
  unfold text_of_file, bind, gets, open_w, extract, write, modify, ret.
  destruct (cache_dir w !! text_path name) as [cached|] eqn:Hc; [done|].
  cbn. destruct (s3_dir w !! name) as [bytes|];
    [destruct (pdf_to_text bytes) as [converted|]; [done|]|];
    by intros [= <- <-].
Qed.


(** ** The worker *)

Lemma object_pipeline_ok obj w chunks w' :
  object_pipeline obj w = (Ok chunks, w') →
  ∃ stored output,
    cache_dir w' !! cache_key obj = Some stored
    ∧ is_Some (s3_dir w' !! object_name obj)
    ∧ chunks = chunks_of obj output
    ∧ ((cache_dir w !! cache_key obj = None ∧ output = stored)
       ∨ (cache_dir w !! cache_key obj = Some stored
          ∧ output = universal_newlines stored)).
Proof.
  unfold object_pipeline, cache_key, object_name, chunks_of, bind.
  set (name := content_to_minio_object _ _ _).
  destruct (ensure_file name w) as [[[]|e1] w1] eqn:E1; [|done].
  destruct (text_of_file name w1) as [[output|e2] w2] eqn:E2; [|done].
  intros [= <- <-].
  apply ensure_file_ok in E1 as [Hs Hsame].
  apply text_of_file_ok in E2 as [Hs2 [[Hnone Hnew]|(stored & Hc & -> & ->)]].
  - exists output, output. rewrite Hs2, <- Hsame. split_and!; try done.
    by left.
  - exists stored, (universal_newlines stored). rewrite <- Hsame.
    split_and!; try done. by right.
Qed.

Lemma object_pipeline_hit obj w stored :
  is_Some (s3_dir w !! object_name obj) →
  cache_dir w !! cache_key obj = Some stored →
  object_pipeline obj w = (Ok (chunks_of obj (universal_newlines stored)), w).
Proof.
  unfold object_pipeline, cache_key, object_name, chunks_of, bind.
  intros Hs Hc. by rewrite ensure_file_present, (text_of_file_hit _ _ stored).
Qed.



(** C7.  Whenever [object_pipeline] returns chunks for an entry, they are
    the segments of the split of [clean_text (meta_prefix + text)], i.e. the
    preamble is prepended before the split; [text] is the extracted text: the
    text just converted and written to the cache file, or, if the cache file
    was there already, what reading it gives.  The j-th chunk carries the
    j-th segment, the entry's (course_id, module_id, filename) as
    document-ref and [j] as chunk number, counted from 0, so the chunks are a
    function of the entry and the text alone. *)
Theorem object_pipeline_tags_chunks (obj : MoodleFileObject) (w w' : World)
    (chunks : list Chunk) :
  object_pipeline obj w = (Ok chunks, w') →
  ∃ output,
    (∃ stored,
       cache_dir w' !! cache_key obj = Some stored
       ∧ ((cache_dir w !! cache_key obj = None ∧ output = stored)
          ∨ (cache_dir w !! cache_key obj = Some stored
             ∧ output = universal_newlines stored)))
    ∧ chunks = tag_chunks obj (split_text (clean_text (meta_prefix obj +:+ output)))
    ∧ length chunks
      = length (split_text (clean_text (meta_prefix obj +:+ output)))
    ∧ ∀ j c, chunks !! j = Some c →
        document_ref c = {| ref_course_id := course_id obj;
                            ref_module_id := module_id obj;
                            ref_filename := filename obj |}
        ∧ chunk_number (chunk_ref c) = j
        ∧ split_text (clean_text (meta_prefix obj +:+ output)) !! j
          = Some (text c).
Proof.
  intros Hrun.
  apply object_pipeline_ok in Hrun as (stored & output & Hc & _ & -> & Hcases).
  exists output. unfold chunks_of, tag_chunks.
  split_and!; [by exists stored|done|apply length_imap|].
  intros j c. rewrite list_lookup_imap.
  destruct (split_text _ !! j) as [segment|]; [|done].
  by intros [= <-].
Qed.


(** A conversion that fails leaves an empty cache file under the entry's
    key, and the next run takes that file for the text of the document. *)
Lemma failed_extraction_leaves_empty_file (obj : MoodleFileObject)
    (w : World) (bytes : string) :
  s3_dir w !! object_name obj = Some bytes →
  pdf_to_text bytes = None →
  cache_dir w !! cache_key obj = None →
  ∃ w', object_pipeline obj w = (Raise FileDataError, w')
    ∧ cache_dir w' !! cache_key obj = Some ""
    ∧ object_pipeline obj w' = (Ok (chunks_of obj ""), w').
Proof.
  intros Hs Hp Hc. eexists. split.
  { unfold object_pipeline, bind. fold (object_name obj).
    rewrite ensure_file_present by (by rewrite Hs).
    unfold text_of_file, bind, gets, open_w, extract, modify.
    fold (cache_key obj). rewrite Hc. cbn. rewrite Hs, Hp. reflexivity. }
  cbn. rewrite lookup_insert_eq. split; [done|].
  apply (object_pipeline_hit obj _ ""); cbn;
    [by rewrite Hs|by rewrite lookup_insert_eq].
Qed.

(** ** The fan-out *)

Lemma save_file_chunks_pool chunks :
  preserves (fun w => count_events is_pool (trace w))
            (save_file_chunks_to_qdrant chunks).
Proof.
  intros w. destruct chunks as [|chunk0 rest]; [done|].
  unfold save_file_chunks_to_qdrant, bind, qdrant_count, qdrant_delete,
    encode_dense, encode_sparse, qdrant_upload_collection, modify, ret.
  case_decide; count_logged.
Qed.

(** The index writer leaves the files alone. *)
Lemma save_file_chunks_files chunks :
  preserves (fun w => (s3_dir w, cache_dir w))
            (save_file_chunks_to_qdrant chunks).
Proof.
  intros w. destruct chunks as [|chunk0 rest]; [done|].
  unfold save_file_chunks_to_qdrant, bind, qdrant_count, qdrant_delete,
    encode_dense, encode_sparse, qdrant_upload_collection, modify, ret.
  by case_decide.
Qed.

Lemma preserves_on_raise {A B} (f : World → B) (m : M A) (cleanup : M unit) :
  preserves f m → preserves f cleanup → preserves f (on_raise m cleanup).
Proof.
  intros Hm Hc w. unfold on_raise. specialize (Hm w).
  destruct (m w) as [[a|e] w1]; cbn in *; [done|]. by rewrite Hc.
Qed.

Lemma preserves_terminate {B} (f : World → B)
    (work : list (MoodleFileObject * Progress)) :
  (∀ progress obj, preserves f (run_until progress obj)) →
  preserves f (terminate work).
Proof.
  intros Hrun. induction work as [|[obj progress] rest IH]; [done|].
  intros w. cbn [terminate]. by rewrite IH, Hrun.
Qed.

(** A worker that is stopped, like one that finishes, touches neither the
    collection nor the encoders, and starts no pool. *)
Lemma run_until_store progress obj : preserves store (run_until progress obj).
Proof.
  unfold run_until. apply preserves_bind; [by apply preserves_modify|].
  intros _. destruct progress.
  - apply ensure_file_store.
  - apply preserves_bind; [apply ensure_file_store|]. intros _.
    apply preserves_bind; [apply preserves_gets|]. intros [stored|].
    + apply preserves_ret.
    + apply preserves_bind; [by apply preserves_modify|].
      intros _. by apply preserves_modify.
  - apply preserves_bind; [apply object_pipeline_store|]. intros _.
    apply preserves_ret.
Qed.

Lemma run_until_count test progress obj :
  (∀ obj', test (EvPipeline obj') = false) →
  (∀ name, test (EvFget name) = false) →
  (∀ name, test (EvExtract name) = false) →
  preserves (fun w => count_events test (trace w)) (run_until progress obj).
Proof.
  intros Hp Hf He. unfold run_until. apply preserves_bind.
  { apply preserves_modify. intros w. rewrite count_events_log, Hp. lia. }
  intros _. destruct progress.
  - by apply ensure_file_count.
  - apply preserves_bind; [by apply ensure_file_count|]. intros _.
    apply preserves_bind; [apply preserves_gets|]. intros [stored|].
    + apply preserves_ret.
    + apply preserves_bind; [by apply preserves_modify|]. intros _.
      apply preserves_modify. intros w. rewrite count_events_log, He. lia.
  - apply preserves_bind; [by apply object_pipeline_count|]. intros _.
    apply preserves_ret.
Qed.

Lemma for_file_chunks_pool order :
  preserves (fun w => count_events is_pool (trace w)) (for_file_chunks order).
Proof.
  induction order as [|item rest IH]; [apply preserves_ret|].
  cbn [for_file_chunks]. apply preserves_bind.
  - apply preserves_on_raise.
    + apply preserves_bind.
      * apply preserves_modify. intros w. count_logged.
      * intros _. by apply object_pipeline_count.
    + apply preserves_terminate. intros progress obj.
      by apply run_until_count.
  - intros [|chunk0 chunks]; (apply preserves_bind; [|intros _; apply IH]).
    + apply preserves_ret.
    + apply save_file_chunks_pool.
Qed.

(** Every call of [corpora_to_qdrant] starts the pool once. *)
Lemma corpora_to_qdrant_pool corpora w :
  count_events is_pool (trace (corpora_to_qdrant corpora w).2)
  = S (count_events is_pool (trace w)).
Proof.
  unfold corpora_to_qdrant, bind, modify.
  pose proof (for_file_chunks_pool (completion_order (pdf_items corpora))
                (log (EvPool (pdf_items corpora)) w)) as H.
  cbn beta in H.
  destruct (for_file_chunks _ _) as [[[]|e] w1]; cbn [snd] in *;
    rewrite H; count_logged.
Qed.

Lemma appends_ret {A} (a : A) : appends (ret a).
Proof. intros w. exists []. by rewrite app_nil_r. Qed.

Lemma appends_bind {A B} (m : M A) (k : A → M B) :
  appends m → (∀ a, appends (k a)) → appends (bind m k).
Proof.
  intros Hm Hk w. unfold bind. destruct (Hm w) as [ev1 H1].
  destruct (m w) as [[a|e] w1]; cbn in *; [|by exists ev1].
  destruct (Hk a w1) as [ev2 H2]. exists (ev1 ++ ev2).
  by rewrite H2, H1, app_assoc.
Qed.

Lemma appends_log (e : Event) : appends (modify (log e)).
Proof. intros w. by exists [e]. Qed.

Lemma ensure_file_appends name : appends (ensure_file name).
Proof.
  intros w. unfold ensure_file, bind, gets, fget_object, ret.
  case_bool_decide; [exists []; by rewrite app_nil_r|].
  destruct (bucket name); by exists [EvFget name].
Qed.

Lemma text_of_file_appends name : appends (text_of_file name).
Proof.
  intros w. unfold text_of_file, bind, gets, open_w, extract, write, modify, ret.
  destruct (cache_dir w !! text_path name);
    [exists []; by rewrite app_nil_r|]. cbn.
  destruct (s3_dir w !! name) as [bytes|]; [destruct (pdf_to_text bytes)|];
    by exists [EvExtract name].
Qed.

Lemma object_pipeline_appends obj : appends (object_pipeline obj).
Proof.
  unfold object_pipeline. apply appends_bind; [apply ensure_file_appends|].
  intros _. apply appends_bind; [apply text_of_file_appends|].
  intros output. apply appends_ret.
Qed.

Lemma save_file_chunks_appends chunks :
  appends (save_file_chunks_to_qdrant chunks).
Proof.
  intros w. destruct chunks as [|chunk0 rest];
    [exists []; by rewrite app_nil_r|].
  unfold save_file_chunks_to_qdrant, bind, qdrant_count, qdrant_delete,
    encode_dense, encode_sparse, qdrant_upload_collection, modify, ret.
  case_decide; cbn; eexists; [reflexivity|].
  rewrite <- !app_assoc. reflexivity.
Qed.

Lemma appends_on_raise {A} (m : M A) (cleanup : M unit) :
  appends m → appends cleanup → appends (on_raise m cleanup).
Proof.
  intros Hm Hc w. unfold on_raise. destruct (Hm w) as [ev1 H1].
  destruct (m w) as [[a|e] w1]; cbn in *; [by exists ev1|].
  destruct (Hc w1) as [ev2 H2]. exists (ev1 ++ ev2).
  by rewrite H2, H1, app_assoc.
Qed.

Lemma run_until_appends progress obj : appends (run_until progress obj).
Proof.
  unfold run_until. apply appends_bind; [apply appends_log|].
  intros _. destruct progress.
  - apply ensure_file_appends.
  - apply appends_bind; [apply ensure_file_appends|]. intros _.
    apply appends_bind.
    { intros w. exists []. by rewrite app_nil_r. }
    intros [stored|]; [apply appends_ret|].
    apply appends_bind; [|intros _; apply appends_log].
    intros w. exists []. by rewrite app_nil_r.
  - apply appends_bind; [apply object_pipeline_appends|]. intros _.
    apply appends_ret.
Qed.

Lemma terminate_appends work : appends (terminate work).
Proof.
  induction work as [|[obj progress] rest IH]; [apply appends_ret|].
  intros w. cbn [terminate].
  destruct (run_until_appends progress obj w) as [ev1 H1].
  destruct (IH (run_until progress obj w).2) as [ev2 H2].
  exists (ev1 ++ ev2). by rewrite H2, H1, app_assoc.
Qed.

Lemma for_file_chunks_appends order : appends (for_file_chunks order).
Proof.
  induction order as [|item rest IH]; [apply appends_ret|].
  cbn [for_file_chunks]. apply appends_bind.
  - apply appends_on_raise; [|apply terminate_appends].
    apply appends_bind; [apply appends_log|]. intros _.
    apply object_pipeline_appends.
  - intros [|chunk0 chunks]; (apply appends_bind; [|intros _; apply IH]).
    + apply appends_ret.
    + apply save_file_chunks_appends.
Qed.



(** C10.  When the worker returns an empty chunk sequence for a document,
    the loop of [corpora_to_qdrant] goes on to the next result without
    calling the index writer: the collection is as it was before the
    document was processed, in particular the points stored under any
    document-ref, and neither the store nor an encoder has been called.
    The index writer itself returns at once on an empty list, changing
    nothing. *)
Theorem empty_result_leaves_index (item : MoodleFileObject)
    (rest : list MoodleFileObject) (w w1 : World) :
  object_pipeline item (log (EvPipeline item) w) = (Ok [], w1) →
  for_file_chunks (item :: rest) w = for_file_chunks rest w1
  ∧ store w1 = store w
  ∧ (∀ ref, records_of ref (store w1) = records_of ref (store w))
  ∧ count_events is_index_call (trace w1)
    = count_events is_index_call (trace w)
  ∧ ∀ w2, save_file_chunks_to_qdrant [] w2 = (Ok tt, w2).
Proof.
  intros Hrun.
  assert (store w1 = store w) as Hstore.
  { pose proof (object_pipeline_store item (log (EvPipeline item) w)) as H.
    by rewrite Hrun in H. }
  split_and!; [|done|by intros ref; rewrite Hstore| |done].
  - cbn [for_file_chunks]. unfold bind, on_raise, modify, ret.
    by rewrite Hrun.
  - pose proof (object_pipeline_count is_index_call item
                  (fun _ => eq_refl) (fun _ => eq_refl)
                  (log (EvPipeline item) w)) as H.
    cbn beta in H. rewrite Hrun in H. cbn [snd] in H. rewrite H.
    count_logged.
Qed.

Lemma corpora_to_qdrant_trace corpora w :
  ∃ events,
    trace (corpora_to_qdrant corpora w).2
    = trace w ++ EvPool (pdf_items corpora) :: events
    ∧ count_events is_pool events = 0.
Proof.
  pose proof (corpora_to_qdrant_pool corpora w) as Hpool. revert Hpool.
  unfold corpora_to_qdrant, bind, modify.
  destruct (for_file_chunks_appends (completion_order (pdf_items corpora))
              (log (EvPool (pdf_items corpora)) w)) as [events Hev].
  assert (∀ w', trace w' = trace (log (EvPool (pdf_items corpora)) w) ++ events →
            count_events is_pool (trace w') = S (count_events is_pool (trace w)) →
            trace w' = trace w ++ EvPool (pdf_items corpora) :: events
            ∧ count_events is_pool events = 0) as Hgen.
  { intros w' -> Hn. cbn [trace log] in *. rewrite <- app_assoc.
    split; [done|].
    rewrite !count_events_app in Hn. unfold count_events in *.
    cbn in Hn. lia. }
  exists events.
  destruct (for_file_chunks _ _) as [[[]|e] w1]; cbn [snd] in *; by apply Hgen.
Qed.

(** ** Suffixes *)

Lemma append_String (a : Ascii.ascii) (s t : string) :
  String a s +:+ t = String a (s +:+ t).
Proof. reflexivity. Qed.

Lemma substring_all (s : string) : String.substring 0 (String.length s) s = s.
Proof. induction s as [|a s IH]; cbn; [done|by rewrite IH]. Qed.

Lemma substring_suffix (stem suffix : string) :
  String.substring (String.length stem) (String.length suffix) (stem +:+ suffix)
  = suffix.
Proof.
  induction stem as [|a stem IH]; [apply substring_all|].
  rewrite append_String. cbn. apply IH.
Qed.

Lemma substring_split (s : string) (i : nat) :
  i ≤ String.length s →
  s = String.substring 0 i s +:+ String.substring i (String.length s - i) s.
Proof.
  revert i. induction s as [|a s IH]; intros [|i] Hi; cbn in *; try lia.
  - done.
  - by rewrite substring_all.
  - rewrite append_String. f_equal. apply IH. lia.
Qed.

Lemma string_length_app (s1 s2 : string) :
  String.length (s1 +:+ s2) = String.length s1 + String.length s2.
Proof.
  induction s1 as [|a s1 IH]; [done|].
  rewrite append_String. cbn. by rewrite IH.
Qed.

(** [endswith] holds exactly of the strings that are a stem followed by the
    suffix. *)
Lemma endswith_spec (s suffix : string) :
  endswith s suffix = true ↔ ∃ stem, s = stem +:+ suffix.
Proof.
  unfold endswith. rewrite andb_true_iff, Nat.leb_le, String.eqb_eq. split.
  - intros [Hle Hsub].
    exists (String.substring 0 (String.length s - String.length suffix) s).
    rewrite (substring_split s (String.length s - String.length suffix)) at 1
      by lia.
    f_equal.
    replace (String.length s - (String.length s - String.length suffix))
      with (String.length suffix) by lia.
    exact Hsub.
  - intros [stem ->]. rewrite string_length_app. split; [lia|].
    replace (String.length stem + String.length suffix - String.length suffix)
      with (String.length stem) by lia.
    apply substring_suffix.
Qed.

(** C8.  [corpora_to_qdrant] hands to the pool exactly the entries of the
    catalog whose filename is a stem followed by [".pdf"], in catalog order;
    the pool is started once, with these; and the run is the same as on the
    catalog with every other entry removed, so an entry that is filtered out
    causes no download, conversion, split or index write. *)
Theorem only_pdf_entries_are_processed (corpora : Corpora) (w : World) :
  (∀ item, item ∈ pdf_items corpora
     ↔ item ∈ moodle_files corpora ∧ ∃ stem, filename item = stem +:+ ".pdf")
  ∧ pdf_items corpora `sublist_of` moodle_files corpora
  ∧ (∃ events,
       trace (corpora_to_qdrant corpora w).2
       = trace w ++ EvPool (pdf_items corpora) :: events
       ∧ count_events is_pool events = 0)
  ∧ corpora_to_qdrant corpora w
    = corpora_to_qdrant {| moodle_files := pdf_items corpora |} w.
Proof.
  split_and!.
  - intros item. unfold pdf_items. rewrite list_elem_of_filter.
    rewrite Is_true_true, endswith_spec. tauto.
  - apply sublist_filter.
  - apply corpora_to_qdrant_trace.
  - unfold corpora_to_qdrant.
    assert (pdf_items {| moodle_files := pdf_items corpora |} = pdf_items corpora)
      as ->; [|done].
    unfold pdf_items; cbn. rewrite list_filter_filter.
    apply list_filter_iff. tauto.
Qed.

(** ** Change detection and the loop *)

Lemma model_dump_inj (a b : MoodleFileObject) :
  model_dump a = model_dump b → a = b.
Proof. destruct a, b. unfold model_dump; cbn. by intros [= -> -> -> ->]. Qed.

Lemma map_model_dump_inj (l1 l2 : list MoodleFileObject) :
  map model_dump l1 = map model_dump l2 → l1 = l2.
Proof.
  revert l2. induction l1 as [|a l1 IH]; intros [|b l2]; try done.
  cbn [map]. intros H. apply (f_equal head) in H as Hab.
  apply (f_equal tail) in H as Hl. cbn in Hab, Hl.
  f_equal; [apply model_dump_inj; congruence|by apply IH].
Qed.

Lemma no_corpora_changes_Some (prev corpora : Corpora) :
  no_corpora_changes (Some prev) corpora = true
  ↔ moodle_files prev = moodle_files corpora.
Proof.
  unfold no_corpora_changes. rewrite bool_decide_eq_true. split.
  - apply map_model_dump_inj.
  - by intros ->.
Qed.

Lemma main_iteration_raise prev e w :
  main_iteration prev (Raise e) w = (Raise e, log EvFetchCorpora w).
Proof. done. Qed.

Lemma main_iteration_unchanged prev corpora w :
  no_corpora_changes prev corpora = true →
  main_iteration prev (Ok corpora) w = (Ok prev, log EvFetchCorpora w).
Proof.
  intros H. unfold main_iteration, bind, fetch_corpora. by rewrite H.
Qed.

Lemma main_iteration_changed prev corpora w :
  no_corpora_changes prev corpora = false →
  main_iteration prev (Ok corpora) w
  = (corpora_to_qdrant corpora ;;; ret (Some corpora)) (log EvFetchCorpora w).
Proof.
  intros H. unfold main_iteration, fetch_corpora. unfold bind at 1.
  by rewrite H.
Qed.

(** After a turn of the loop that did not raise, [prev_corpora] holds the
    entry list of the catalog of that turn. *)
Lemma main_iteration_prev prev corpora w prev' w' :
  main_iteration prev (Ok corpora) w = (Ok prev', w') →
  ∃ p, prev' = Some p ∧ moodle_files p = moodle_files corpora.
Proof.
  destruct (no_corpora_changes prev corpora) eqn:Hno.
  - rewrite main_iteration_unchanged by done. intros [= <- <-].
    destruct prev as [p|]; [|done]. exists p.
    by apply no_corpora_changes_Some in Hno.
  - rewrite main_iteration_changed by done. unfold bind.
    destruct (corpora_to_qdrant _ _) as [[[]|e] w1]; [|done].
    intros [= <- <-]. by exists corpora.
Qed.

(** C5.  Two consecutive polls, the first of which came back from the
    loop body with catalog [c1].  If the entry list of the second catalog
    [c2] equals that of [c1], the second turn only fetches the catalog: the
    pipeline is not run, the world is otherwise untouched and
    [prev_corpora] stays.  If the lists differ in any way, the second turn
    runs [corpora_to_qdrant] on [c2].  In terms of the trace: the second
    turn starts the pool once if the lists differ and not at all if they
    are equal. *)
Theorem second_poll_runs_pipeline_iff_changed (prev prev1 : option Corpora)
    (c1 c2 : Corpora) (w w1 : World) :
  main_iteration prev (Ok c1) w = (Ok prev1, w1) →
  (moodle_files c2 = moodle_files c1 →
     main_iteration prev1 (Ok c2) w1 = (Ok prev1, log EvFetchCorpora w1))
  ∧ (moodle_files c2 ≠ moodle_files c1 →
     main_iteration prev1 (Ok c2) w1
     = (corpora_to_qdrant c2 ;;; ret (Some c2)) (log EvFetchCorpora w1))
  ∧ (count_events is_pool (trace (main_iteration prev1 (Ok c2) w1).2)
     = count_events is_pool (trace w1)
     ↔ moodle_files c2 = moodle_files c1)
  ∧ (count_events is_pool (trace (main_iteration prev1 (Ok c2) w1).2)
     = S (count_events is_pool (trace w1))
     ↔ moodle_files c2 ≠ moodle_files c1).
Proof.
  intros Hfirst. apply main_iteration_prev in Hfirst as (p & -> & Hp).
  assert (moodle_files c2 = moodle_files c1 →
          main_iteration (Some p) (Ok c2) w1 = (Ok (Some p), log EvFetchCorpora w1))
    as Hsame.
  { intros Heq. apply main_iteration_unchanged, no_corpora_changes_Some.
    congruence. }
  assert (moodle_files c2 ≠ moodle_files c1 →
          main_iteration (Some p) (Ok c2) w1
          = (corpora_to_qdrant c2 ;;; ret (Some c2)) (log EvFetchCorpora w1))
    as Hdiff.
  { intros Hne. apply main_iteration_changed.
    destruct (no_corpora_changes (Some p) c2) eqn:Hno; [|done].
    apply no_corpora_changes_Some in Hno. congruence. }
  assert (∀ w0, count_events is_pool
                  (trace ((corpora_to_qdrant c2 ;;; ret (Some c2)) w0).2)
                = S (count_events is_pool (trace w0))) as Hrun.
  { intros w0. pose proof (corpora_to_qdrant_pool c2 w0) as H.
    unfold bind. by destruct (corpora_to_qdrant c2 w0) as [[[]|e] w2]. }
  assert (count_events is_pool (trace (log EvFetchCorpora w1))
          = count_events is_pool (trace w1)) as Hfetch by count_logged.
  split_and!; [done|done|..];
    (destruct (decide (moodle_files c2 = moodle_files c1)) as [Heq|Hne];
     [rewrite Hsame by done; cbn [snd]; rewrite Hfetch
     |rewrite Hdiff by done; rewrite Hrun, Hfetch]);
    (split; intros; first [done|lia]).
Qed.

(** C9.  With no previous catalog, [no_corpora_changes] answers [False]
    whatever the catalog is, so the first turn of [main] runs
    [corpora_to_qdrant] on the catalog it fetched: right after the fetch
    the pool is started, once, with the PDF entries of that catalog (none,
    if the entry list is empty). *)
Theorem first_cycle_runs_pipeline (corpora : Corpora) (w : World) :
  no_corpora_changes None corpora = false
  ∧ main_iteration None (Ok corpora) w
    = (corpora_to_qdrant corpora ;;; ret (Some corpora)) (log EvFetchCorpora w)
  ∧ (main [Ok corpora] w).2
    = (corpora_to_qdrant corpora (log EvFetchCorpora w)).2
  ∧ (∃ events,
       trace (main [Ok corpora] w).2
       = trace w ++ EvFetchCorpora :: EvPool (pdf_items corpora) :: events
       ∧ count_events is_pool events = 0).
Proof.
  assert ((main [Ok corpora] w).2
          = (corpora_to_qdrant corpora (log EvFetchCorpora w)).2) as Hmain.
  { unfold main, main_loop. unfold bind at 1.
    rewrite main_iteration_changed by done. unfold bind.
    by destruct (corpora_to_qdrant _ _) as [[[]|e] w1]. }
  split_and!; [done|by apply main_iteration_changed|done|].
  rewrite Hmain.
  destruct (corpora_to_qdrant_trace corpora (log EvFetchCorpora w))
    as (events & Htrace & Hcount).
  exists events. split; [|done]. rewrite Htrace. cbn.
  by rewrite <- app_assoc.
Qed.

End Properties.

(** * Further properties *)

Section MoreProperties.
Context `{C : Collaborators}.

(** ** The index writer *)

(** The filter [save_file_chunks_to_qdrant] builds selects by document-ref:
    counting with it gives the number of points whose payload carries
    exactly [ref], and deleting with it removes exactly those points. *)
Theorem duplicates_filter_selects_by_ref (ref : DocumentRef) (w : World) :
  (qdrant_count (duplicates_filter ref) w).1
  = Ok (length (filter (fun p => document_ref (payload p) = ref) (store w)))
  ∧ store (qdrant_delete (duplicates_filter ref) w).2
    = filter (fun p => document_ref (payload p) ≠ ref) (store w).
Proof.
  unfold qdrant_count, qdrant_delete, modify.
  cbn [fst snd store set_store log]. split.
  - do 2 f_equal. apply list_filter_iff. intros p.
    apply filter_matches_duplicates.
  - apply list_filter_iff. intros p.
    by rewrite filter_matches_duplicates.
Qed.

Lemma records_of_beside_ne (A B : DocumentRef) (s : list Point) :
  B ≠ A → records_of B (records_beside A s) = records_of B s.
Proof.
  intros Hne. unfold records_of, records_beside.
  rewrite list_filter_filter. apply list_filter_iff. intros p.
  rewrite !filter_matches_duplicates. split; [tauto|].
  intros HB. split; [done|congruence].
Qed.

Lemma records_of_other (A B : DocumentRef) (s : list Point) :
  B ≠ A →
  Forall (fun p => document_ref (payload p) = A) s → records_of B s = [].
Proof.
  intros Hne. unfold records_of. induction 1 as [|p s Hp _ IH]; [done|].
  rewrite filter_cons_False; [done|].
  rewrite filter_matches_duplicates. congruence.
Qed.

(** What a call of the index writer makes of the collection. *)
Lemma save_file_chunks_store (chunk0 : Chunk) (rest : list Chunk) (w : World) :
  let ref := document_ref chunk0 in
  let w' := (save_file_chunks_to_qdrant (chunk0 :: rest) w).2 in
  (length (records_of ref (store w)) = length (chunk0 :: rest)
   ∧ store w' = store w)
  ∨ (length (records_of ref (store w)) ≠ length (chunk0 :: rest)
     ∧ store w' = records_beside ref (store w) ++ fresh_points (chunk0 :: rest)).
Proof.
  cbn zeta.
  unfold save_file_chunks_to_qdrant, bind, qdrant_count, qdrant_delete,
    encode_dense, encode_sparse, qdrant_upload_collection, modify, ret.
  fold (records_of (document_ref chunk0) (store w)).
  case_decide; [by left|by right].
Qed.

Lemma save_file_chunks_other_ref (chunks : list Chunk) (A B : DocumentRef)
    (w : World) :
  Forall (fun c => document_ref c = A) chunks →
  B ≠ A →
  records_of B (store (save_file_chunks_to_qdrant chunks w).2)
  = records_of B (store w).
Proof.
  intros Hall Hne. destruct chunks as [|chunk0 rest]; [done|].
  assert (document_ref chunk0 = A) as Href by (by inversion Hall).
  destruct (save_file_chunks_store chunk0 rest w) as [[_ ->]|[_ ->]]; [done|].
  rewrite Href. unfold records_of at 1. rewrite filter_app.
  fold (records_of B (records_beside A (store w))).
  fold (records_of B (fresh_points (chunk0 :: rest))).
  rewrite records_of_beside_ne by done.
  rewrite (records_of_other A B (fresh_points (chunk0 :: rest))).
  - apply app_nil_r.
  - done.
  - by apply fresh_points_ref.
Qed.

(** Writing the chunks of one document leaves the points of every other
    document as they are, whether the call skips or replaces: the points
    under another document-ref are the same before and after, and so is
    what a count for that document-ref answers. *)
Theorem save_keeps_other_documents (chunks : list Chunk) (A B : DocumentRef)
    (w : World) :
  Forall (fun c => document_ref c = A) chunks →
  B ≠ A →
  let w' := (save_file_chunks_to_qdrant chunks w).2 in
  records_of B (store w') = records_of B (store w)
  ∧ (qdrant_count (duplicates_filter B) w').1
    = (qdrant_count (duplicates_filter B) w).1.
Proof.
  intros Hall Hne w'.
  pose proof (save_file_chunks_other_ref chunks A B w Hall Hne) as Hsame.
  fold w' in Hsame. split; [done|].
  unfold qdrant_count; cbn [fst].
  fold (records_of B (store w')). fold (records_of B (store w)).
  by rewrite Hsame.
Qed.

Lemma fresh_points_length (chunks : list Chunk) :
  length (bi_encoder_encode (map text chunks)) = length chunks →
  length (bm25_embed (map text chunks)) = length chunks →
  length (fresh_points chunks) = length chunks.
Proof.
  intros Hd Hs. unfold fresh_points. rewrite !length_zip_with. lia.
Qed.

(** After a call of the index writer, the points under the batch's
    document-ref are as many as the batch has chunks. *)
Lemma save_file_chunks_count (chunks : list Chunk) (ref : DocumentRef)
    (w : World) :
  chunks ≠ [] →
  Forall (fun c => document_ref c = ref) chunks →
  length (bi_encoder_encode (map text chunks)) = length chunks →
  length (bm25_embed (map text chunks)) = length chunks →
  length (records_of ref (store (save_file_chunks_to_qdrant chunks w).2))
  = length chunks.
Proof.
  intros Hne Hall Hd Hs. destruct chunks as [|chunk0 rest]; [done|].
  assert (document_ref chunk0 = ref) as Href by (by inversion Hall).
  destruct (save_file_chunks_store chunk0 rest w) as [[Hn ->]|[_ ->]];
    rewrite Href in *; [done|].
  unfold records_of. rewrite filter_app.
  fold (records_of ref (records_beside ref (store w))).
  fold (records_of ref (fresh_points (chunk0 :: rest))).
  rewrite records_of_beside.
  rewrite (records_of_all ref (fresh_points (chunk0 :: rest)))
    by (by apply fresh_points_ref).
  by apply fresh_points_length.
Qed.

(** Writing the same batch again right after a call that returned makes
    one call only, the count: nothing is deleted, encoded or uploaded a
    second time, whether the first call skipped or replaced. *)
Theorem save_again_only_counts (chunks : list Chunk) (ref : DocumentRef)
    (w : World) :
  chunks ≠ [] →
  Forall (fun c => document_ref c = ref) chunks →
  length (bi_encoder_encode (map text chunks)) = length chunks →
  length (bm25_embed (map text chunks)) = length chunks →
  let w1 := (save_file_chunks_to_qdrant chunks w).2 in
  save_file_chunks_to_qdrant chunks w1
  = (Ok tt, log (EvCount (duplicates_filter ref)) w1).
Proof.
  intros Hne Hall Hd Hs w1.
  pose proof (save_file_chunks_count chunks ref w Hne Hall Hd Hs) as Hcount.
  fold w1 in Hcount. clearbody w1.
  destruct chunks as [|chunk0 rest]; [done|].
  assert (document_ref chunk0 = ref) as Href by (by inversion Hall).
  unfold save_file_chunks_to_qdrant, bind, qdrant_count. rewrite Href.
  fold (records_of ref (store w1)). by rewrite decide_True.
Qed.

(** ** Files *)

#[local] Instance files_kept_preorder : PreOrder files_kept.
Proof.
  split.
  - by intros w.
  - intros w1 w2 w3 [Hs1 Hc1] [Hs2 Hc2]. split; by etrans.
Qed.

Lemma respects_ret {A} (R : World → World → Prop) `{!Reflexive R} (a : A) :
  respects R (ret a).
Proof. by intros w. Qed.

Lemma respects_bind {A B} (R : World → World → Prop) `{!Transitive R}
    (m : M A) (k : A → M B) :
  respects R m → (∀ a, respects R (k a)) → respects R (bind m k).
Proof.
  intros Hm Hk w. unfold bind. specialize (Hm w).
  destruct (m w) as [[a|e] w1]; cbn in *; [|done].
  etrans; [done|apply Hk].
Qed.

Lemma files_kept_log (e : Event) : respects files_kept (modify (log e)).
Proof. by intros w. Qed.

Lemma ensure_file_files name : respects files_kept (ensure_file name).
Proof.
  intros w. unfold ensure_file, bind, gets, fget_object, ret.
  case_bool_decide as Hs; [done|].
  destruct (bucket name); [|done]. split; [|done]. cbn.
  apply insert_subseteq. by apply eq_None_not_Some.
Qed.

Lemma text_of_file_files name : respects files_kept (text_of_file name).
Proof.
  intros w. unfold text_of_file, bind, gets, open_w, extract, write, modify, ret.
  destruct (cache_dir w !! text_path name) eqn:Hc; [done|]. cbn.
  destruct (s3_dir w !! name) as [bytes|]; [destruct (pdf_to_text bytes)|];
    (split; [done|]); cbn; rewrite ?insert_insert_eq;
    by apply insert_subseteq.
Qed.

Lemma object_pipeline_files obj : respects files_kept (object_pipeline obj).
Proof.
  unfold object_pipeline.
  apply respects_bind; [apply _|apply ensure_file_files|]. intros _.
  apply respects_bind; [apply _|apply text_of_file_files|]. intros output.
  by apply respects_ret.
Qed.

Lemma save_file_chunks_files_kept chunks :
  respects files_kept (save_file_chunks_to_qdrant chunks).
Proof.
  intros w. pose proof (save_file_chunks_files chunks w) as H.
  cbn beta in H. injection H as Hs Hc. split; by (rewrite Hs || rewrite Hc).
Qed.

Lemma respects_on_raise {A} (R : World → World → Prop) `{!Transitive R}
    (m : M A) (cleanup : M unit) :
  respects R m → respects R cleanup → respects R (on_raise m cleanup).
Proof.
  intros Hm Hc w. unfold on_raise. specialize (Hm w).
  destruct (m w) as [[a|e] w1]; cbn in *; [done|].
  etrans; [done|apply Hc].
Qed.

Lemma run_until_files progress obj :
  respects files_kept (run_until progress obj).
Proof.
  unfold run_until. apply respects_bind; [apply _|apply files_kept_log|].
  intros _. destruct progress.
  - apply ensure_file_files.
  - apply respects_bind; [apply _|apply ensure_file_files|]. intros _.
    intros w. unfold bind, gets, open_w, modify, ret.
    destruct (cache_dir w !! text_path _) eqn:Hc; [done|]. cbn.
    split; [done|]. cbn. by apply insert_subseteq.
  - apply respects_bind; [apply _|apply object_pipeline_files|]. intros _.
    by apply respects_ret.
Qed.

Lemma terminate_files work : respects files_kept (terminate work).
Proof.
  induction work as [|[obj progress] rest IH]; [by apply respects_ret|].
  intros w. cbn [terminate]. etrans; [apply run_until_files|apply IH].
Qed.

Lemma for_file_chunks_files order : respects files_kept (for_file_chunks order).
Proof.
  induction order as [|item rest IH]; [by apply respects_ret|].
  cbn [for_file_chunks]. apply respects_bind; [apply _| |].
  - apply respects_on_raise; [apply _| |apply terminate_files].
    apply respects_bind; [apply _|apply files_kept_log|]. intros _.
    apply object_pipeline_files.
  - intros [|chunk0 chunks];
      (apply respects_bind; [apply _| |intros _; apply IH]).
    + by apply respects_ret.
    + apply save_file_chunks_files_kept.
Qed.

Lemma corpora_to_qdrant_files corpora :
  respects files_kept (corpora_to_qdrant corpora).
Proof.
  unfold corpora_to_qdrant.
  apply respects_bind; [apply _|apply files_kept_log|]. intros _.
  apply for_file_chunks_files.
Qed.

Lemma main_iteration_files prev reply :
  respects files_kept (main_iteration prev reply).
Proof.
  unfold main_iteration. apply respects_bind; [apply _|by intros w|].
  intros corpora. destruct (no_corpora_changes prev corpora).
  - by apply respects_ret.
  - apply respects_bind; [apply _|apply corpora_to_qdrant_files|].
    intros _. by apply respects_ret.
Qed.

Lemma main_loop_files prev replies :
  respects files_kept (main_loop prev replies).
Proof.
  revert prev. induction replies as [|reply later IH]; intros prev.
  - by apply respects_ret.
  - cbn [main_loop]. apply respects_bind; [apply _|apply main_iteration_files|].
    intros prev'. apply IH.
Qed.

(** However long [main] runs and whether or not it ends in an exception, a
    file that is in the local mirror or in the text cache stays there with
    the content it has: the program never deletes, overwrites or truncates
    an existing file. *)
Theorem files_are_never_changed (replies : list (Res Corpora)) (w : World) :
  let w' := (main replies w).2 in
  (∀ name bytes, s3_dir w !! name = Some bytes → s3_dir w' !! name = Some bytes)
  ∧ (∀ key output, cache_dir w !! key = Some output →
       cache_dir w' !! key = Some output).
Proof.
  destruct (main_loop_files None replies w) as [Hs Hc].
  split; intros k v Hk; by eapply lookup_weaken.
Qed.

(** ** The worker *)


(** ** Cycles *)

Lemma chunks_of_ref (obj : MoodleFileObject) (output : string) :
  Forall (fun c => document_ref c = entry_ref obj) (chunks_of obj output).
Proof.
  apply Forall_lookup. intros j c. unfold chunks_of, tag_chunks.
  rewrite list_lookup_imap.
  destruct (split_text _ !! j) as [segment|]; [|done]. by intros [= <-].
Qed.

(** The loop over the results changes the points of no document but those
    it runs. *)
Lemma for_file_chunks_other_ref (order : list MoodleFileObject)
    (ref : DocumentRef) (w : World) :
  (∀ item, item ∈ order → entry_ref item ≠ ref) →
  records_of ref (store (for_file_chunks order w).2) = records_of ref (store w).
Proof.
  revert w. induction order as [|item rest IH]; intros w Hrefs; [done|].
  assert (entry_ref item ≠ ref) as Hitem by (apply Hrefs; left).
  assert (∀ item', item' ∈ rest → entry_ref item' ≠ ref) as Hrest
    by (intros item' Hin; apply Hrefs; by right).
  cbn [for_file_chunks]. unfold bind, on_raise, modify.
  pose proof (object_pipeline_store item (log (EvPipeline item) w)) as Hstore.
  destruct (object_pipeline item _) as [[chunks|e] w1] eqn:E;
    cbn [snd store log] in *.
  2: { rewrite (preserves_terminate store _ run_until_store). by rewrite Hstore. }
  apply object_pipeline_ok in E as (stored & output & _ & _ & -> & _).
  pose proof (chunks_of_ref item output) as Hall.
  destruct (chunks_of item output) as [|chunk0 chunks]; unfold ret.
  - rewrite IH by done. by rewrite Hstore.
  - pose proof (save_file_chunks_other_ref (chunk0 :: chunks)
                  (entry_ref item) ref w1 Hall) as Hsave.
    destruct (save_file_chunks_to_qdrant _ w1) as [[[]|e] w2];
      cbn [snd] in *; rewrite ?IH by done; rewrite Hsave by done;
      by rewrite Hstore.
Qed.

Lemma corpora_to_qdrant_other_ref (corpora : Corpora) (ref : DocumentRef)
    (w : World) :
  completion_order (pdf_items corpora) ⊆ pdf_items corpora →
  (∀ item, item ∈ moodle_files corpora → entry_ref item ≠ ref) →
  records_of ref (store (corpora_to_qdrant corpora w).2)
  = records_of ref (store w).
Proof.
  intros Hsub Hrefs. unfold corpora_to_qdrant, bind, modify.
  pose proof (for_file_chunks_other_ref (completion_order (pdf_items corpora))
                ref (log (EvPool (pdf_items corpora)) w)) as H.
  destruct (for_file_chunks _ _) as [[[]|e] w1]; cbn [snd] in *;
    apply H; intros item Hin; apply Hrefs;
    apply Hsub in Hin; unfold pdf_items in Hin;
    by apply list_elem_of_filter in Hin as [_ ?].
Qed.

(** The points of a document that no catalog lists are never touched: as
    long as the pool hands back results of submitted entries only, the
    points under a document-ref that is the key of no entry of any fetched
    catalog are the same after any number of polls as before, whether the
    loop is still running or has ended in an exception.  In particular the
    points of a document that was removed from the catalog stay in the
    index. *)
Theorem unlisted_documents_keep_their_points (replies : list (Res Corpora))
    (ref : DocumentRef) (w : World) :
  (∀ items, completion_order items ⊆ items) →
  (∀ corpora item,
     Ok corpora ∈ replies → item ∈ moodle_files corpora → entry_ref item ≠ ref) →
  records_of ref (store (main replies w).2) = records_of ref (store w).
Proof.
  intros Hpool. unfold main. generalize (@None Corpora) as prev.
  revert w. induction replies as [|reply later IH]; intros w prev Hrefs;
    [done|].
  cbn [main_loop]. unfold bind at 1.
  assert (records_of ref (store (main_iteration prev reply w).2)
          = records_of ref (store w)) as Hturn.
  { destruct reply as [corpora|e]; [|done].
    destruct (no_corpora_changes prev corpora) eqn:Hno.
    - by rewrite main_iteration_unchanged.
    - rewrite main_iteration_changed by done. unfold bind.
      pose proof (corpora_to_qdrant_other_ref corpora ref
                    (log EvFetchCorpora w) (Hpool _)) as H.
      destruct (corpora_to_qdrant _ _) as [[[]|e] w1]; cbn [snd] in *;
        apply H; intros item Hin; (apply (Hrefs corpora); [by left|done]). }
  destruct (main_iteration prev reply w) as [[prev'|e] w1]; cbn [snd] in *;
    [|done].
  rewrite IH; [done|]. intros corpora item Hin. apply Hrefs. by right.
Qed.

(** The loop over the results, when it returned, document by document. *)
Lemma for_file_chunks_outcome (order : list MoodleFileObject) (w w' : World) :
  NoDup (entry_ref <$> order) →
  for_file_chunks order w = (Ok tt, w') →
  ∀ item, item ∈ order → indexed_as item w w'.
Proof.
  revert w. induction order as [|item0 rest IH]; intros w Hnodup Hrun item Hin;
    [by apply elem_of_nil in Hin|].
  apply NoDup_cons in Hnodup as [Hfresh Hnodup].
  assert (∀ item', item' ∈ rest → entry_ref item' ≠ entry_ref item0) as Hrest.
  { intros item' Hin' Heq. apply Hfresh. rewrite <- Heq.
    by apply list_elem_of_fmap_2. }
  revert Hrun. cbn [for_file_chunks]. unfold bind, on_raise, modify.
  pose proof (object_pipeline_store item0 (log (EvPipeline item0) w)) as Hstore.
  pose proof (object_pipeline_files item0 (log (EvPipeline item0) w))
    as [_ Hkept0].
  destruct (object_pipeline item0 _) as [[chunks0|e] w1] eqn:E; [|done].
  cbn [snd store log cache_dir] in Hstore, Hkept0.
  apply object_pipeline_ok in E as (stored0 & out0 & Hc1 & _ & -> & Hcases).
  cbn [cache_dir log] in Hcases.
  pose proof (chunks_of_ref item0 out0) as Hall.
  set (step := match chunks_of item0 out0 with
               | [] => ret tt
               | _ :: _ => save_file_chunks_to_qdrant (chunks_of item0 out0)
               end).
  assert (files_kept w1 (step w1).2) as [_ Hkept1].
  { unfold step. destruct (chunks_of item0 out0); [done|].
    apply save_file_chunks_files_kept. }
  assert (∀ ref, ref ≠ entry_ref item0 →
            records_of ref (store (step w1).2) = records_of ref (store w))
    as Hothers.
  { intros ref Hne. rewrite <- Hstore. unfold step.
    destruct (chunks_of item0 out0) eqn:Hch; [done|]. rewrite <- Hch in *.
    by apply (save_file_chunks_other_ref _ (entry_ref item0)). }
  assert (let chunks := chunks_of item0 out0 in
          (chunks = [] ∨ length (records_of (entry_ref item0) (store w))
                         = length chunks →
             records_of (entry_ref item0) (store (step w1).2)
             = records_of (entry_ref item0) (store w))
          ∧ (chunks ≠ [] →
             length (records_of (entry_ref item0) (store w)) ≠ length chunks →
             records_of (entry_ref item0) (store (step w1).2)
             = fresh_points chunks)) as Hown.
  { cbn zeta. rewrite <- Hstore. unfold step.
    destruct (chunks_of item0 out0) as [|chunk0 chunks] eqn:Hch.
    { split; [done|]. by intros []. }
    assert (document_ref chunk0 = entry_ref item0) as Href
      by (by inversion Hall).
    destruct (save_file_chunks_store chunk0 chunks w1) as [[Hn Hs]|[Hn Hs]];
      cbn zeta in Hs; rewrite Href in *; rewrite Hs.
    - split; [done|]. intros _ Hne. by destruct Hne.
    - split; [by intros [?|?]|]. intros _ _.
      unfold records_of. rewrite filter_app.
      fold (records_of (entry_ref item0) (records_beside (entry_ref item0) (store w1))).
      fold (records_of (entry_ref item0) (fresh_points (chunk0 :: chunks))).
      rewrite records_of_beside.
      by rewrite (records_of_all (entry_ref item0)
                    (fresh_points (chunk0 :: chunks)))
        by (by apply fresh_points_ref). }
  fold step. destruct (step w1) as [[[]|e] w2]; [|done]. cbn [snd] in *.
  intros Hrun.
  pose proof (for_file_chunks_files rest w2) as [_ Hkept2].
  rewrite Hrun in Hkept2. cbn [snd] in Hkept2.
  apply elem_of_cons in Hin as [->|Hin].
  - exists stored0, out0. split_and!.
    + eapply lookup_weaken; [|done]. by eapply lookup_weaken.
    + destruct Hcases as [[_ ->]|[_ ->]]; [by left|by right].
    + intros stored Hstored. destruct Hcases as [[Hnone _]|[Hsome ->]];
        congruence.
    + pose proof (for_file_chunks_other_ref rest (entry_ref item0) w2 Hrest)
        as Hlater.
      rewrite Hrun in Hlater. cbn [snd] in Hlater. cbn zeta.
      rewrite Hlater. exact Hown.
  - destruct (IH w2 Hnodup Hrun item Hin)
      as (stored & output & Hc & Htext & Hpre & Hout).
    exists stored, output. split_and!; [done|done| |].
    + intros stored' Hstored. apply Hpre.
      eapply lookup_weaken; [|done]. by eapply lookup_weaken.
    + cbn zeta in *.
      by rewrite (Hothers (entry_ref item)) in Hout by (by apply Hrest).
Qed.

(** A cycle that returned has brought every document it ran in line with
    its text, as far as the count can tell.  The text of a document is what
    its worker returned: the stored content of its cache file as it was
    written or as it reads back, and the latter if the file was there
    before the cycle.  With distinct keys among the entries run and one
    vector per text from each encoder: a document whose chunks are as many
    as its points were before the cycle (or that has no chunks) keeps the
    points it had; any other document has exactly its chunks as points;
    either way a document with chunks ends with as many points as
    chunks. *)
Theorem cycle_outcome_per_document (corpora : Corpora) (w w' : World) :
  (∀ texts, length (bi_encoder_encode texts) = length texts) →
  (∀ texts, length (bm25_embed texts) = length texts) →
  NoDup (entry_ref <$> completion_order (pdf_items corpora)) →
  corpora_to_qdrant corpora w = (Ok tt, w') →
  ∀ item, item ∈ completion_order (pdf_items corpora) →
    ∃ stored output,
      cache_dir w' !! cache_key item = Some stored
      ∧ (output = stored ∨ output = universal_newlines stored)
      ∧ (∀ stored0, cache_dir w !! cache_key item = Some stored0 →
           output = universal_newlines stored0)
      ∧ let chunks := chunks_of item output in
        let ref := entry_ref item in
        (chunks = [] ∨ length (records_of ref (store w)) = length chunks →
           records_of ref (store w') = records_of ref (store w))
        ∧ (chunks ≠ [] → length (records_of ref (store w)) ≠ length chunks →
             payload <$> records_of ref (store w') = chunks)
        ∧ (chunks ≠ [] → length (records_of ref (store w')) = length chunks).
Proof.
  intros Hd Hs Hnodup Hrun item Hin.
  revert Hrun. unfold corpora_to_qdrant, bind, modify. intros Hrun.
  destruct (for_file_chunks_outcome _ _ w' Hnodup Hrun item Hin)
    as (stored & output & Hc & Htext & Hpre & Hsame & Hnew).
  cbn [store log cache_dir] in *. exists stored, output.
  split_and!; [done|done|done|..]; cbn zeta.
  - done.
  - intros Hne Hn. rewrite Hnew by done.
    apply fresh_points_payload; [rewrite Hd|rewrite Hs]; apply length_map.
  - intros Hne.
    destruct (decide (length (records_of (entry_ref item) (store w))
                      = length (chunks_of item output))) as [Hn|Hn].
    + rewrite Hsame by (by right). done.
    + rewrite Hnew by done.
      apply fresh_points_length; [rewrite Hd|rewrite Hs]; apply length_map.
Qed.


(** As long as the catalog that comes back has the entry list of
    [prev_corpora], the loop does nothing but fetch: the collection and the
    files stay as they are, and no worker, store or encoder is called. *)
Theorem unchanged_catalog_only_fetches (prev : Corpora)
    (replies : list (Res Corpora)) (w : World) :
  Forall (fun reply => ∃ corpora, reply = Ok corpora
                         ∧ moodle_files corpora = moodle_files prev) replies →
  ∃ w', main_loop (Some prev) replies w = (Ok (Some prev), w')
    ∧ store w' = store w
    ∧ s3_dir w' = s3_dir w
    ∧ cache_dir w' = cache_dir w
    ∧ trace w' = trace w ++ replicate (length replies) EvFetchCorpora.
Proof.
  intros Hall. revert w.
  induction Hall as [|reply later (corpora & -> & Hsame) _ IH]; intros w.
  { exists w. by rewrite app_nil_r. }
  cbn [main_loop]. unfold bind.
  rewrite main_iteration_unchanged by (by apply no_corpora_changes_Some).
  destruct (IH (log EvFetchCorpora w)) as (w' & -> & Hst & Hs3 & Hc & Htr).
  exists w'. split_and!; [done..|].
  rewrite Htr. cbn. by rewrite <- app_assoc.
Qed.

End MoreProperties.

(** * Start-up and schemas *)

Section SetupProperties.
Import Setup.

(** When the collection does not exist at start-up, it is created with a
    payload index under exactly the keys of the filter the index writer
    builds from a document-ref, each with the schema type of the value the
    filter matches on it (integer for the two ids, keyword for the
    filename); its vectors are ["dense"], of the given dimension with dot
    product, and ["bm25"], with the IDF modifier. *)
Theorem init_indexes_the_filter_keys (name : string) (dimension : nat)
    (server : gmap string Collection) :
  server !! name = None →
  ∃ c, init_collection name dimension server !! name = Some c
    ∧ (∀ ref cond, cond ∈ must (duplicates_filter ref) →
         payload_schema c !! key cond = Some (schema_of (match_value cond)))
    ∧ (∀ ref field, is_Some (payload_schema c !! field)
         ↔ field ∈ key <$> must (duplicates_filter ref))
    ∧ vectors_config c = {[ "dense" := {| size := dimension; distance := Dot |} ]}
    ∧ sparse_vectors_config c = {[ "bm25" := {| modifier := Idf |} ]}.
Proof.
  intros Hfree. unfold init_collection, collection_exists.
  rewrite bool_decide_eq_false_2 by (by rewrite Hfree; intros [? ?]).
  cbn [negb]. unfold create_payload_index, create_collection.
  rewrite !lookup_alter_eq, lookup_insert_eq. cbn.
  eexists. split; [reflexivity|]. cbn.
  split_and!; [| |done|done].
  - intros ref cond Hin. unfold duplicates_filter in Hin; cbn in Hin.
    cbv [String.append] in Hin.
    repeat (apply elem_of_cons in Hin as [->|Hin]; [by simplify_map_eq|]).
    by apply elem_of_nil in Hin.
  - intros ref field. unfold duplicates_filter; cbn. cbv [String.append].
    rewrite !lookup_insert_is_Some', !elem_of_cons, elem_of_nil.
    pose proof (lookup_empty_is_Some (A := PayloadSchemaType) field).
    intuition congruence.
Qed.

(** Start-up never changes a collection that exists, nor any collection
    under another name; running it a second time changes nothing. *)
Theorem init_is_idempotent (name : string) (dimension dimension' : nat)
    (server : gmap string Collection) :
  (is_Some (server !! name) → init_collection name dimension server = server)
  ∧ (∀ other, other ≠ name →
       init_collection name dimension server !! other = server !! other)
  ∧ init_collection name dimension' (init_collection name dimension server)
    = init_collection name dimension server.
Proof.
  assert (∀ d s, is_Some (s !! name) → init_collection name d s = s) as Hkeep.
  { intros d s Hs. unfold init_collection, collection_exists.
    by rewrite bool_decide_eq_true_2. }
  split_and!; [apply Hkeep| |].
  - intros other Hne. unfold init_collection, collection_exists.
    case_bool_decide; [done|]. cbn [negb].
    unfold create_payload_index, create_collection.
    by rewrite !lookup_alter_ne, lookup_insert_ne.
  - apply Hkeep. unfold init_collection, collection_exists.
    case_bool_decide; [done|]. cbn [negb].
    unfold create_payload_index, create_collection.
    rewrite !lookup_alter_eq, lookup_insert_eq. by eexists.
Qed.

End SetupProperties.

Section MoodleSchemasProperties.
Import MoodleSchemas.

Lemma pretty_N_char_no_slash (x : N) : pretty_N_char x ≠ "/"%char.
Proof. unfold pretty_N_char. by repeat case_match. Qed.

Lemma pretty_N_go_no_slash (x : N) (s : string) :
  no_slash s → no_slash (pretty_N_go x s).
Proof.
  revert s. induction (N.lt_wf_0 x) as [x _ IH]; intros s Hs.
  assert (x = 0 ∨ 0 < x)%N as [->|Hpos] by lia.
  - by rewrite pretty_N_go_0.
  - rewrite pretty_N_go_step by done. apply IH.
    + by apply N.div_lt.
    + split; [apply pretty_N_char_no_slash|done].
Qed.

Lemma pretty_N_no_slash (x : N) : no_slash (pretty x).
Proof.
  unfold pretty, pretty_N. case_decide; [by split|].
  by apply pretty_N_go_no_slash.
Qed.

Lemma pretty_Z_no_slash (z : Z) : no_slash (pretty z).
Proof.
  destruct z as [|p|p]; unfold pretty, pretty_Z.
  - by split.
  - apply pretty_N_no_slash.
  - split; [done|]. apply pretty_N_no_slash.
Qed.

(** Two strings cut at their first slash agree part by part. *)
Lemma cut_at_slash (s1 s2 r1 r2 : string) :
  no_slash s1 → no_slash s2 →
  s1 +:+ String "/" r1 = s2 +:+ String "/" r2 → s1 = s2 ∧ r1 = r2.
Proof.
  revert s2. induction s1 as [|a s1 IH]; intros [|b s2];
    rewrite ?append_String; change ("" +:+ ?s) with s; cbn [no_slash].
  - by intros _ _ [= ->].
  - by intros _ [Hb _] [= <- _].
  - by intros [Ha _] _ [= -> _].
  - intros [_ H1] [_ H2] [= -> Hrest].
    by destruct (IH s2 H1 H2 Hrest) as [-> ->].
Qed.

(** Object names do not collide: two references with the same object name
    have the same course id, module id and filename. *)
Theorem to_object_injective (a b : FileOnlyContentRef) :
  to_object a = to_object b → a = b.
Proof.
  destruct a as [c1 m1 f1], b as [c2 m2 f2]. unfold to_object; cbn.
  intros [= H].
  apply (cut_at_slash _ _ (pretty m1 +:+ "/" +:+ f1) (pretty m2 +:+ "/" +:+ f2))
    in H as [Hc H]; [|apply pretty_Z_no_slash..].
  apply (cut_at_slash _ _ f1 f2) in H as [Hm ->];
    [|apply pretty_Z_no_slash..].
  apply (inj pretty) in Hc, Hm. by subst.
Qed.

End MoodleSchemasProperties.

Section SearchSchemasProperties.
Import SearchSchemas.

Lemma append_empty (s : string) : "" +:+ s = s.
Proof. reflexivity. Qed.

Lemma append_assoc (s1 s2 s3 : string) :
  (s1 +:+ s2) +:+ s3 = s1 +:+ (s2 +:+ s3).
Proof.
  induction s1 as [|a s1 IH]; [done|]. rewrite !append_String. by rewrite IH.
Qed.

Lemma prefix_spec (p s : string) :
  String.prefix p s = true ↔ ∃ t, s = p +:+ t.
Proof.
  revert p. induction s as [|b s IH]; intros [|a p]; cbn.
  - split; [|done]. intros _. by exists "".
  - split; [done|]. intros [t Ht]. by rewrite append_String in Ht.
  - split; [|done]. intros _. by exists (String b s).
  - destruct (Ascii.ascii_dec a b) as [->|Hne].
    + rewrite IH. split; intros [t Ht]; exists t.
      * by rewrite append_String, <- Ht.
      * rewrite append_String in Ht. by injection Ht.
    + split; [done|]. intros [t Ht]. rewrite append_String in Ht.
      injection Ht as -> _. done.
Qed.

Lemma before_first_unfold (sep s : string) :
  before_first sep s
  = if String.prefix sep s then ""
    else match s with
         | EmptyString => ""
         | String a s' => String a (before_first sep s')
         end.
Proof. by destruct s. Qed.

(** What comes before the first occurrence is a part of the string: all of
    it if the separator does not occur, else what the separator follows. *)
Lemma before_first_cases (sep s : string) :
  (before_first sep s = s ∧ ¬ occurs sep s)
  ∨ ∃ rest, s = before_first sep s +:+ sep +:+ rest.
Proof.
  induction s as [|c s IH]; rewrite before_first_unfold;
    destruct (String.prefix sep _) eqn:Hp.
  - right. apply prefix_spec in Hp as [t Ht]. by exists t.
  - left. split; [done|]. intros ([|??] & b & Hab); [|done].
    rewrite append_empty in Hab.
    assert (String.prefix sep "" = true) as Hp'
      by (apply prefix_spec; by exists b).
    congruence.
  - right. apply prefix_spec in Hp as [t Ht]. by exists t.
  - destruct IH as [[Hsame Hno]|[rest Hrest]].
    + left. rewrite Hsame. split; [done|].
      intros ([|a0 a] & b & Hab).
      * rewrite append_empty in Hab.
        assert (String.prefix sep (String c s) = true) as Hp'
          by (apply prefix_spec; by exists b).
        congruence.
      * rewrite append_String in Hab. injection Hab as -> Hs.
        apply Hno. by exists a, b.
    + right. exists rest. rewrite append_String. by rewrite <- Hrest.
Qed.

Lemma before_first_is_prefix (sep s : string) :
  ∃ t, s = before_first sep s +:+ t.
Proof.
  destruct (before_first_cases sep s) as [[Hsame _]|[rest Hrest]].
  - exists "". rewrite Hsame. clear. induction s as [|a s IH]; [done|].
    rewrite append_String. by rewrite <- IH.
  - by exists (sep +:+ rest).
Qed.

(** The separator does not occur in what comes before its first
    occurrence. *)
Lemma before_first_no_occurrence (sep s : string) :
  sep ≠ "" → ¬ occurs sep (before_first sep s).
Proof.
  intros Hsep. induction s as [|c s IH]; rewrite before_first_unfold;
    destruct (String.prefix sep _) eqn:Hp.
  - intros ([|??] & b & Hab); [|done]. rewrite append_empty in Hab.
    destruct sep; [done|]. by rewrite append_String in Hab.
  - intros ([|??] & b & Hab); [|done]. rewrite append_empty in Hab.
    destruct sep; [done|]. by rewrite append_String in Hab.
  - intros ([|??] & b & Hab); [|done]. rewrite append_empty in Hab.
    destruct sep; [done|]. by rewrite append_String in Hab.
  - intros ([|a0 a] & b & Hab).
    + rewrite append_empty in Hab.
      destruct (before_first_is_prefix sep s) as [t Ht].
      assert (String.prefix sep (String c s) = true) as Hp'.
      { apply prefix_spec. exists (b +:+ t).
        rewrite <- append_assoc, <- Hab, append_String. by rewrite <- Ht. }
      congruence.
    + rewrite append_String in Hab. injection Hab as -> Hs.
      apply IH. by exists a, b.
Qed.

(** No occurrence of the separator starts before the end of what comes
    before its first occurrence. *)
Lemma before_first_leftmost (sep s a b : string) :
  s = a +:+ sep +:+ b →
  String.length (before_first sep s) ≤ String.length a.
Proof.
  revert a. induction s as [|c s IH]; intros a Hs;
    rewrite before_first_unfold; destruct (String.prefix sep _) eqn:Hp;
    cbn [String.length]; try lia.
  destruct a as [|a0 a].
  - rewrite append_empty in Hs.
    assert (String.prefix sep (String c s) = true) as Hp'
      by (apply prefix_spec; by exists b).
    congruence.
  - rewrite append_String in Hs. injection Hs as -> Hs.
    cbn [String.length]. apply IH in Hs. lia.
Qed.

Lemma only_normal_all_normal (s : string) : all_normal (only_normal s) = true.
Proof.
  induction s as [|a s IH]; [done|]. cbn.
  destruct (is_normal a) eqn:Ha; [|done]. cbn. by rewrite Ha, IH.
Qed.

(** ** [MoodleSource] *)

(** With a course name that is a string and a module name, the validator
    returns the dict with two keys set and every other key as it was: the
    display name is the module name, and the breadcrumbs are ["Moodle"], a
    course crumb and the module name.  The course crumb is the part of the
    course name before its first [" / "]: it is the whole name if [" / "]
    does not occur in it, and is otherwise followed by [" / "] in it, and no
    occurrence of [" / "] in the course name starts earlier than the one
    that follows the crumb; so [" / "] does not occur in the crumb. *)
Theorem moodle_course_crumb (data : gmap string PyVal) (course : string)
    (module : PyVal) :
  data !! "course_name" = Some (PStr course) →
  data !! "module_name" = Some module →
  ∃ crumb data',
    set_breadcrumbs_and_display_name data = Returns data'
    ∧ data' !! "breadcrumbs" = Some (PList [PStr "Moodle"; PStr crumb; module])
    ∧ data' !! "display_name" = Some module
    ∧ (∀ k, k ≠ "breadcrumbs" → k ≠ "display_name" → data' !! k = data !! k)
    ∧ ((crumb = course ∧ ¬ occurs " / " course)
       ∨ ∃ rest, course = crumb +:+ " / " +:+ rest)
    ∧ (∀ a b, course = a +:+ " / " +:+ b →
         String.length crumb ≤ String.length a)
    ∧ ¬ occurs " / " crumb.
Proof.
  intros Hc Hm. exists (before_first " / " course). eexists.
  unfold set_breadcrumbs_and_display_name. rewrite Hc, Hm.
  split; [reflexivity|]. split_and!.
  - by rewrite lookup_insert_ne, lookup_insert_eq.
  - by rewrite lookup_insert_eq.
  - intros k Hb Hd. by rewrite !lookup_insert_ne.
  - destruct (before_first_cases " / " course) as [[? ?]|?]; [by left|by right].
  - intros a b. apply before_first_leftmost.
  - by apply before_first_no_occurrence.
Qed.

(** The validator of [MoodleSource] leaves a dict without a course name or
    without a module name as it is; it raises exactly when both are there
    and the course name is no string; and a dict it has returned is
    returned unchanged when validated again. *)
Theorem moodle_validator_settles (data : gmap string PyVal) :
  (data !! "course_name" = None ∨ data !! "module_name" = None →
     set_breadcrumbs_and_display_name data = Returns data)
  ∧ (set_breadcrumbs_and_display_name data = AttributeError
     ↔ is_Some (data !! "module_name")
       ∧ ∃ v, data !! "course_name" = Some v ∧ ∀ s, v ≠ PStr s)
  ∧ (∀ data', set_breadcrumbs_and_display_name data = Returns data' →
       set_breadcrumbs_and_display_name data' = Returns data').
Proof.
  unfold set_breadcrumbs_and_display_name. split_and!.
  - intros [-> | Hm]; [done|]. rewrite Hm. by destruct (data !! "course_name").
  - destruct (data !! "course_name") as [v|] eqn:Hc;
      [destruct (data !! "module_name") as [m|] eqn:Hm|].
    + destruct v; (split; [intros H|intros (_ & v' & [= <-] & Hv)]);
        try done; try (split; [by eexists|eexists; split; [done|by intros ?]]).
      by destruct (Hv s).
    + split; [done|]. by intros ([? ?] & _).
    + split; [done|]. by intros (_ & ? & ? & _).
  - intros data'.
    destruct (data !! "course_name") as [v|] eqn:Hc;
      [destruct (data !! "module_name") as [m|] eqn:Hm|];
      [destruct v; try done| |]; intros [= <-].
    + rewrite !lookup_insert_ne, Hc, Hm by done. f_equal.
      apply map_eq. intros k. rewrite !lookup_insert.
      by repeat case_decide.
    + by rewrite Hc, Hm.
    + by rewrite Hc.
Qed.

(** ** [TelegramSource] *)

(** With a chat title, whenever the validator returns, the display name it
    has set is a string that is not empty: it is ["-"], or it consists of
    letters [a-z], [A-Z], digits and spaces only.  The breadcrumbs are
    ["Telegram"] and the chat title, and every other key is as it was. *)
Theorem telegram_display_name_is_clean (data data' : gmap string PyVal)
    (title : PyVal) :
  data !! "chat_title" = Some title →
  set_breadcrumbs data = Returns data' →
  ∃ name,
    data' !! "display_name" = Some (PStr name)
    ∧ name ≠ ""
    ∧ (name = "-" ∨ all_normal name = true)
    ∧ data' !! "breadcrumbs" = Some (PList [PStr "Telegram"; title])
    ∧ ∀ k, k ≠ "breadcrumbs" → k ≠ "display_name" → data' !! k = data !! k.
Proof.
  intros Ht. unfold set_breadcrumbs. rewrite Ht.
  set (text := or_ _ _).
  assert (∀ name0, ∃ name,
            (if String.eqb name0 "" then "-" else name0) = name
            ∧ name ≠ "" ∧ (name = "-" ∨ all_normal name0 = true → name = "-" ∨ all_normal name = true)) as Hname.
  { intros name0. eexists. split; [done|].
    destruct (String.eqb_spec name0 ""); [by split; [|left]|by split]. }
  destruct (truthy text); [destruct text; try done|].
  - intros [= <-].
    destruct (Hname (only_normal (before_first newline s)))
      as (name & -> & Hne & Hclean).
    exists name. split_and!.
    + by rewrite lookup_insert_eq.
    + done.
    + apply Hclean. right. apply only_normal_all_normal.
    + by rewrite lookup_insert_ne, lookup_insert_eq.
    + intros k Hb Hd. by rewrite !lookup_insert_ne.
  - intros [= <-]. exists "-". split_and!.
    + by rewrite lookup_insert_eq.
    + done.
    + by left.
    + by rewrite lookup_insert_ne, lookup_insert_eq.
    + intros k Hb Hd. by rewrite !lookup_insert_ne.
Qed.

(** When the text of a message is truthy, its caption plays no part: with
    any other caption the validator does the same, returning the dict with
    that caption or raising as before. *)
Theorem telegram_text_before_caption (data : gmap string PyVal)
    (caption : PyVal) :
  truthy (get data "text") = true →
  match set_breadcrumbs data with
  | Returns data' =>
      set_breadcrumbs (<["caption" := caption]> data)
      = Returns (<["caption" := caption]> data')
  | AttributeError =>
      set_breadcrumbs (<["caption" := caption]> data) = AttributeError
  end.
Proof.
  intros Htext. unfold set_breadcrumbs.
  rewrite lookup_insert_ne by done.
  destruct (data !! "chat_title") as [title|]; [|done].
  unfold or_, get in *.
  rewrite !(lookup_insert_ne _ _ "text") by done. rewrite Htext.
  destruct (default PNone (data !! "text")); rewrite ?Htext; try done.
  f_equal. apply map_eq. intros k. rewrite !lookup_insert.
  repeat case_decide; congruence.
Qed.

Lemma set_breadcrumbs_with_title (data : gmap string PyVal) (title : PyVal) :
  data !! "chat_title" = Some title →
  set_breadcrumbs data
  = let text := or_ (get data "text") (get data "caption") in
    let crumbs := <["breadcrumbs" := PList [PStr "Telegram"; title]]> data in
    if truthy text then
      match text with
      | PStr t =>
          Returns (<["display_name" :=
                       PStr (if String.eqb (only_normal (before_first newline t)) ""
                             then "-"
                             else only_normal (before_first newline t))]> crumbs)
      | _ => AttributeError
      end
    else Returns (<["display_name" := PStr "-"]> crumbs).
Proof.
  intros Ht. unfold set_breadcrumbs, get. rewrite Ht.
  by rewrite !lookup_insert_ne.
Qed.

Lemma set_breadcrumbs_again (data : gmap string PyVal) (title : PyVal)
    (name : string) :
  data !! "chat_title" = Some title →
  let data' := <["display_name" := PStr name]>
                 (<["breadcrumbs" := PList [PStr "Telegram"; title]]> data) in
  data' !! "chat_title" = Some title
  ∧ or_ (get data' "text") (get data' "caption")
    = or_ (get data "text") (get data "caption")
  ∧ ∀ name', <["display_name" := PStr name']>
               (<["breadcrumbs" := PList [PStr "Telegram"; title]]> data')
             = <["display_name" := PStr name']>
                 (<["breadcrumbs" := PList [PStr "Telegram"; title]]> data).
Proof.
  intros Ht data'. unfold data', get. rewrite !lookup_insert_ne by done.
  split_and!; [done|done|].
  intros name'. apply map_eq. intros k. rewrite !lookup_insert.
  repeat case_decide; congruence.
Qed.

(** The validator of [TelegramSource] leaves a dict without a chat title as
    it is; it raises exactly when there is a chat title and the text (or,
    if the text is falsy, the caption) is truthy and no string; and a dict
    it has returned is returned unchanged when validated again. *)
Theorem telegram_validator_settles (data : gmap string PyVal) :
  (data !! "chat_title" = None → set_breadcrumbs data = Returns data)
  ∧ (set_breadcrumbs data = AttributeError
     ↔ is_Some (data !! "chat_title")
       ∧ truthy (or_ (get data "text") (get data "caption")) = true
       ∧ ∀ s, or_ (get data "text") (get data "caption") ≠ PStr s)
  ∧ (∀ data', set_breadcrumbs data = Returns data' →
       set_breadcrumbs data' = Returns data').
Proof.
  split_and!.
  - unfold set_breadcrumbs. by intros ->.
  - unfold set_breadcrumbs. destruct (data !! "chat_title") as [title|];
      [|split; [done|by intros ([? ?] & _)]].
    unfold get. rewrite !lookup_insert_ne by done.
    fold (get data "text"). fold (get data "caption").
    destruct (truthy (or_ _ _)) eqn:Htruthy;
      [|split; [done|by intros (_ & ? & _)]].
    destruct (or_ _ _) eqn:Hor;
      (split; [intros H|intros (_ & _ & Hv)]); try done;
      try (split_and!; [by eexists|done|by intros ?]).
    by destruct (Hv s).
  - intros data'. destruct (data !! "chat_title") as [title|] eqn:Ht;
      [|unfold set_breadcrumbs; rewrite Ht; intros [= <-]; by rewrite Ht].
    rewrite (set_breadcrumbs_with_title data title Ht).
    cbn zeta. set (text := or_ _ _).
    assert (∀ name,
              <["display_name" := PStr name]>
                (<["breadcrumbs" := PList [PStr "Telegram"; title]]> data) = data' →
              set_breadcrumbs data'
              = if truthy text then
                  match text with
                  | PStr t =>
                      Returns (<["display_name" :=
                                   PStr (if String.eqb (only_normal (before_first newline t)) ""
                                         then "-"
                                         else only_normal (before_first newline t))]>
                                 (<["breadcrumbs" := PList [PStr "Telegram"; title]]> data))
                  | _ => AttributeError
                  end
                else Returns (<["display_name" := PStr "-"]>
                                (<["breadcrumbs" := PList [PStr "Telegram"; title]]> data)))
      as Hagain.
    { intros name <-.
      destruct (set_breadcrumbs_again data title name Ht) as (Ht' & Htext & Hsame).
      rewrite (set_breadcrumbs_with_title _ title Ht'). cbn zeta.
      rewrite Htext. fold text.
      destruct (truthy text); [destruct text; try done|]; by rewrite Hsame. }
    destruct (truthy text) eqn:Htruthy; [destruct text eqn:Htext; try done|];
      intros [= Hd]; rewrite (Hagain _ Hd); by rewrite Hd.
Qed.

End SearchSchemasProperties.

(** ** The properties at work on concrete collaborators *)

Section Examples.
Import Demo.
#[local] Existing Instance collaborators.

Lemma save_replaces_stale_records_witness :
  ∃ w', save_file_chunks_to_qdrant a_chunks stale_world = (Ok tt, w')
    ∧ store w' = point (chunk b_pdf 0 "lecture two") :: map point a_chunks
    ∧ payload <$> records_of (ref_of a_pdf) (store w') = a_chunks.
Proof.
  destruct (save_replaces_stale_records a_chunks (ref_of a_pdf) stale_world)
    as (w' & Hrun & Hstore & _ & Hpayload & _).
  - discriminate.
  - repeat constructor.
  - vm_compute. lia.
  - reflexivity.
  - reflexivity.
  - exists w'. split_and!; [exact Hrun|rewrite Hstore; reflexivity|exact Hpayload].
Defined.

Lemma save_skips_on_equal_count_witness :
  ∃ w', save_file_chunks_to_qdrant a_chunks indexed_world = (Ok tt, w')
    ∧ store w' = store indexed_world
    ∧ trace w' = [EvCount (duplicates_filter (ref_of a_pdf))].
Proof.
  destruct (save_skips_on_equal_count a_chunk0 a_rest indexed_world)
    as (w' & Hrun & Hstore & Htrace & _).
  - reflexivity.
  - exists w'. split_and!; [exact Hrun|exact Hstore|exact Htrace].
Defined.

Lemma object_pipeline_tags_chunks_witness :
  (object_pipeline a_pdf empty_world).1 = Ok a_chunks
  ∧ ∃ output,
      a_chunks
      = tag_chunks a_pdf (split_text (clean_text (meta_prefix a_pdf +:+ output)))
      ∧ ∀ j c, a_chunks !! j = Some c →
          document_ref c = ref_of a_pdf ∧ chunk_number (chunk_ref c) = j.
Proof.
  assert (object_pipeline a_pdf empty_world
          = (Ok a_chunks, (object_pipeline a_pdf empty_world).2)) as Hrun
    by (vm_compute; reflexivity).
  split; [by rewrite Hrun|].
  destruct (object_pipeline_tags_chunks a_pdf empty_world _ a_chunks Hrun)
    as (output & _ & Hchunks & _ & Htags).
  exists output. split; [exact Hchunks|].
  intros j c Hj. destruct (Htags j c Hj) as (Href & Hnum & _). by split.
Defined.



Lemma empty_result_leaves_index_witness :
  (object_pipeline blank_pdf (log (EvPipeline blank_pdf) blank_world)).1 = Ok []
  ∧ store (for_file_chunks [blank_pdf] blank_world).2 = store blank_world
  ∧ length (records_of (ref_of blank_pdf) (store blank_world)) = 2.
Proof.
  assert (object_pipeline blank_pdf (log (EvPipeline blank_pdf) blank_world)
          = (Ok [], (object_pipeline blank_pdf
                       (log (EvPipeline blank_pdf) blank_world)).2)) as Hrun
    by (vm_compute; reflexivity).
  destruct (empty_result_leaves_index blank_pdf [] blank_world _ Hrun)
    as (Hloop & Hstore & _).
  split_and!; [by rewrite Hrun| |reflexivity].
  rewrite Hloop. exact Hstore.
Defined.

Lemma second_poll_runs_pipeline_iff_changed_witness :
  main_iteration None (Ok small_catalog) empty_world
  = (Ok (Some small_catalog), after_first_poll)
  ∧ main_iteration (Some small_catalog) (Ok small_catalog) after_first_poll
    = (Ok (Some small_catalog), log EvFetchCorpora after_first_poll)
  ∧ count_events is_pool
      (trace (main_iteration (Some small_catalog) (Ok catalog) after_first_poll).2)
    = S (count_events is_pool (trace after_first_poll)).
Proof.
  assert (main_iteration None (Ok small_catalog) empty_world
          = (Ok (Some small_catalog), after_first_poll)) as Hfirst
    by (vm_compute; reflexivity).
  split; [exact Hfirst|].
  split.
  - destruct (second_poll_runs_pipeline_iff_changed
                None (Some small_catalog) small_catalog small_catalog
                empty_world after_first_poll Hfirst) as (Hsame & _).
    apply Hsame. reflexivity.
  - destruct (second_poll_runs_pipeline_iff_changed
                None (Some small_catalog) small_catalog catalog
                empty_world after_first_poll Hfirst) as (_ & _ & _ & Hdiff).
    apply Hdiff. discriminate.
Defined.



(** C4 on the code.  The file [broken.pdf] is no PDF, so its conversion
    raises and the exception reaches the caller; but the cache file the
    [with open(text_path, "w")] block had opened stays behind, empty, under
    the entry's key.  The next run finds it, does not convert, and returns
    the chunks of the preamble followed by no text. *)
Theorem failed_extraction_leaves_cache_artifact :
  let run1 := object_pipeline broken_pdf empty_world in
  let run2 := object_pipeline broken_pdf run1.2 in
  run1.1 = Raise FileDataError
  ∧ cache_dir empty_world !! cache_key broken_pdf = None
  ∧ cache_dir run1.2 !! cache_key broken_pdf = Some ""
  ∧ run2.1 = Ok [chunk broken_pdf 0 "course=IR;"]
  ∧ count_events is_extract (trace run2.2) = 1.
Proof. vm_compute. split_and!; reflexivity. Qed.

End Examples.

Section MoreExamples.
Import Demo.
#[local] Existing Instance collaborators.

Lemma demo_encoders :
  (∀ texts, length (bi_encoder_encode texts) = length texts)
  ∧ (∀ texts, length (bm25_embed texts) = length texts).
Proof. split; intros texts; apply length_map. Qed.

Lemma save_keeps_other_documents_witness :
  records_of (ref_of b_pdf) (store (save_file_chunks_to_qdrant a_chunks stale_world).2)
  = [point (chunk b_pdf 0 "lecture two")].
Proof.
  destruct (save_keeps_other_documents a_chunks (ref_of a_pdf) (ref_of b_pdf)
              stale_world) as [Hsame _].
  - repeat constructor.
  - discriminate.
  - rewrite Hsame. reflexivity.
Defined.

Lemma save_again_only_counts_witness :
  let w1 := (save_file_chunks_to_qdrant a_chunks stale_world).2 in
  save_file_chunks_to_qdrant a_chunks w1
  = (Ok tt, log (EvCount (duplicates_filter (ref_of a_pdf))) w1).
Proof.
  apply (save_again_only_counts a_chunks (ref_of a_pdf) stale_world).
  - discriminate.
  - repeat constructor.
  - reflexivity.
  - reflexivity.
Defined.

Lemma unlisted_documents_keep_their_points_witness :
  records_of (ref_of b_pdf) (store (main [Ok small_catalog] stale_world).2)
  = [point (chunk b_pdf 0 "lecture two")].
Proof.
  rewrite (unlisted_documents_keep_their_points [Ok small_catalog]
             (ref_of b_pdf) stale_world).
  - reflexivity.
  - intros items. reflexivity.
  - intros corpora item Hc Hitem.
    apply list_elem_of_singleton in Hc as [= ->]. cbn in Hitem.
    repeat (apply elem_of_cons in Hitem as [->|Hitem]; [discriminate|]).
    by apply elem_of_nil in Hitem.
Defined.

Lemma cycle_outcome_per_document_witness :
  ∃ w', corpora_to_qdrant small_catalog stale_world = (Ok tt, w')
    ∧ payload <$> records_of (entry_ref a_pdf) (store w') = a_chunks.
Proof.
  destruct (corpora_to_qdrant small_catalog stale_world) as [r w'] eqn:Hrun.
  assert (r = Ok tt) as ->
    by (apply (f_equal fst) in Hrun; vm_compute in Hrun; congruence).
  exists w'. split; [done|].
  destruct demo_encoders as [Hd Hs].
  destruct (cycle_outcome_per_document small_catalog stale_world w' Hd Hs)
    with (item := a_pdf) as (stored & output & Hc & Htext & _ & _ & Hnew & _).
  - vm_compute. apply NoDup_singleton.
  - exact Hrun.
  - vm_compute. apply list_elem_of_here.
  - assert (cache_dir w' !! cache_key a_pdf = Some "lecture one, about search")
      as Hcache
      by (apply (f_equal snd) in Hrun; cbn [snd] in Hrun; rewrite <- Hrun;
          vm_compute; reflexivity).
    rewrite Hcache in Hc. injection Hc as <-.
    assert (output = "lecture one, about search") as ->
      by (by destruct Htext as [-> | ->]).
    apply Hnew; vm_compute; [discriminate|lia].
Defined.

Lemma unchanged_catalog_only_fetches_witness :
  ∃ w', main_loop (Some small_catalog) [Ok small_catalog; Ok small_catalog]
          indexed_world = (Ok (Some small_catalog), w')
    ∧ store w' = store indexed_world
    ∧ trace w' = [EvFetchCorpora; EvFetchCorpora].
Proof.
  destruct (unchanged_catalog_only_fetches small_catalog
              [Ok small_catalog; Ok small_catalog] indexed_world)
    as (w' & Hrun & Hstore & _ & _ & Htrace).
  - repeat constructor; by exists small_catalog.
  - exists w'. split_and!; [exact Hrun|exact Hstore|exact Htrace].
Defined.

Lemma init_indexes_the_filter_keys_witness :
  ∃ c, Setup.init_collection "moodle" 768 ∅ !! "moodle" = Some c
    ∧ Setup.payload_schema c !! "document-ref.filename" = Some Setup.Keyword.
Proof.
  destruct (init_indexes_the_filter_keys "moodle" 768 ∅)
    as (c & Hc & Hkeys & _).
  - apply lookup_empty.
  - exists c. split; [exact Hc|].
    apply (Hkeys (ref_of a_pdf)
             {| key := "document-ref.filename"; match_value := VStr "a.pdf" |}).
    unfold duplicates_filter; cbn. cbv [String.append].
    do 2 apply list_elem_of_further. apply list_elem_of_here.
Defined.

Lemma to_object_injective_witness :
  MoodleSchemas.to_object
    {| MoodleSchemas.course_id := 1; MoodleSchemas.module_id := 2;
       MoodleSchemas.filename := "a.pdf" |} = "moodle/1/2/a.pdf"
  ∧ {| MoodleSchemas.course_id := 1; MoodleSchemas.module_id := 2;
       MoodleSchemas.filename := "a.pdf" |}
    = {| MoodleSchemas.course_id := 1; MoodleSchemas.module_id := 2;
         MoodleSchemas.filename := "a.pdf" |}.
Proof.
  split; [reflexivity|]. apply to_object_injective. reflexivity.
Defined.

Lemma moodle_course_crumb_witness :
  ∃ data',
    SearchSchemas.set_breadcrumbs_and_display_name
      {[ "course_name" := SearchSchemas.PStr "Search / / Poisk";
         "module_name" := SearchSchemas.PStr "Lecture 1" ]}
    = SearchSchemas.Returns data'
    ∧ data' !! "breadcrumbs"
      = Some (SearchSchemas.PList
                [SearchSchemas.PStr "Moodle";
                 SearchSchemas.PStr "Search";
                 SearchSchemas.PStr "Lecture 1"]).
Proof.
  destruct (moodle_course_crumb
              {[ "course_name" := SearchSchemas.PStr "Search / / Poisk";
                 "module_name" := SearchSchemas.PStr "Lecture 1" ]}
              "Search / / Poisk"
              (SearchSchemas.PStr "Lecture 1"))
    as (crumb & data' & Hrun & Hcrumbs & _ & _ & Hcases & Hleft & Hno).
  - reflexivity.
  - reflexivity.
  - exists data'. split; [exact Hrun|]. rewrite Hcrumbs.
    assert (SearchSchemas.set_breadcrumbs_and_display_name
              {[ "course_name" := SearchSchemas.PStr "Search / / Poisk";
                 "module_name" := SearchSchemas.PStr "Lecture 1" ]}
            = SearchSchemas.Returns
                (<["display_name" := SearchSchemas.PStr "Lecture 1"]>
                   (<["breadcrumbs" :=
                        SearchSchemas.PList
                          [SearchSchemas.PStr "Moodle";
                           SearchSchemas.PStr "Search";
                           SearchSchemas.PStr "Lecture 1"]]>
                      {[ "course_name" := SearchSchemas.PStr "Search / / Poisk";
                         "module_name" := SearchSchemas.PStr "Lecture 1" ]})))
      as Heval by reflexivity.
    rewrite Heval in Hrun. injection Hrun as <-.
    rewrite lookup_insert_ne, lookup_insert_eq in Hcrumbs by done.
    by injection Hcrumbs as <-.
Defined.

Lemma telegram_display_name_is_clean_witness :
  ∃ data' name,
    SearchSchemas.set_breadcrumbs
      {[ "chat_title" := SearchSchemas.PStr "News";
         "text" := SearchSchemas.PStr ("Exam on May 5!" +:+ SearchSchemas.newline +:+ "Room 108") ]}
    = SearchSchemas.Returns data'
    ∧ data' !! "display_name" = Some (SearchSchemas.PStr name)
    ∧ name ≠ "".
Proof.
  set (data := {[ "chat_title" := SearchSchemas.PStr "News";
                  "text" := SearchSchemas.PStr ("Exam on May 5!" +:+ SearchSchemas.newline +:+ "Room 108") ]}
               : gmap string SearchSchemas.PyVal).
  assert (data !! "chat_title" = Some (SearchSchemas.PStr "News")) as Htitle
    by reflexivity.
  destruct (SearchSchemas.set_breadcrumbs data) as [data'|] eqn:Hrun;
    [|vm_compute in Hrun; discriminate].
  destruct (telegram_display_name_is_clean data data' (SearchSchemas.PStr "News")
              Htitle Hrun) as (name & Hname & Hne & _).
  by exists data', name.
Defined.

Lemma telegram_text_before_caption_witness :
  SearchSchemas.set_breadcrumbs
    (<["caption" := SearchSchemas.PInt 7]>
       {[ "chat_title" := SearchSchemas.PStr "News";
          "text" := SearchSchemas.PStr "Exam" ]})
  = SearchSchemas.Returns
      (<["caption" := SearchSchemas.PInt 7]>
         (<["display_name" := SearchSchemas.PStr "Exam"]>
            (<["breadcrumbs" := SearchSchemas.PList
                 [SearchSchemas.PStr "Telegram"; SearchSchemas.PStr "News"]]>
               {[ "chat_title" := SearchSchemas.PStr "News";
                  "text" := SearchSchemas.PStr "Exam" ]}))).
Proof.
  pose proof (telegram_text_before_caption
                {[ "chat_title" := SearchSchemas.PStr "News";
                   "text" := SearchSchemas.PStr "Exam" ]}
                (SearchSchemas.PInt 7) eq_refl) as H.
  exact H.
Defined.

End MoreExamples.
